(** * pat: an HTTP request multiplexer with pat-like routes

    A shallow embedding of package [pat] (pathMatch, pathMatchFlat,
    pathMatchSplat, parseSplats, cleanPath, ServeMux.match, ServeMux.handler,
    ServeMux.ServeHTTP, ServeMux.Handle, ServeMux.HandleFunc) and the
    properties of its routing behaviour.

    Conventions of the embedding:
    - a Go [string] is a [string] (a sequence of bytes); a Go [int] is a [Z]
      (lengths of strings and slices are far below the range of [int], so no
      wrap-around is involved);
    - a run-time panic (index or slice bounds out of range, explicit [panic])
      is the [Panic] outcome of the [result] monad;
    - [map[string]muxEntry] is a [gmap string muxEntry]; the order in which
      [range] visits a map is unspecified in Go, so loops over the map take
      the visiting order as an argument, constrained to be a permutation of
      the map's bindings;
    - [sync.RWMutex] is not modelled: every operation is taken as atomic. *)

From Stdlib Require Import ZArith Ascii String.
From stdpp Require Import base option list gmap strings fin_maps.

Local Open Scope string_scope.
Local Open Scope list_scope.
Local Open Scope Z_scope.

#[local] Arguments String.append : simpl nomatch.

(** ** Panics *)

Inductive result (A : Type) : Type :=
| Ok (a : A)
| Panic (msg : string).
Arguments Ok {A} a.
Arguments Panic {A} msg.

Global Instance result_ret : MRet result := λ A a, Ok a.
Global Instance result_bind : MBind result := λ A B f r,
  match r with
  | Ok a => f a
  | Panic msg => Panic msg
  end.

Definition returns {A} (r : result A) : Prop := ∃ a, r = Ok a.

(** ** Go strings and slices *)

Definition len (s : string) : Z := Z.of_nat (String.length s).

Fixpoint string_take (n : nat) (s : string) : string :=
  match n, s with
  | S n', String c s' => String c (string_take n' s')
  | _, _ => ""
  end.

Fixpoint string_drop (n : nat) (s : string) : string :=
  match n, s with
  | S n', String _ s' => string_drop n' s'
  | _, _ => s
  end.

(** [s[i]] *)
Definition byte_at (s : string) (i : Z) : result ascii :=
  if (0 <=? i) && (i <? len s) then
    match String.get (Z.to_nat i) s with
    | Some c => Ok c
    | None => Panic "index out of range"
    end
  else Panic "index out of range".

(** [s[i:j]] *)
Definition slice (s : string) (i j : Z) : result string :=
  if (0 <=? i) && (i <=? j) && (j <=? len s) then
    Ok (string_take (Z.to_nat (j - i)) (string_drop (Z.to_nat i) s))
  else Panic "slice bounds out of range".

(** [s[i:]] *)
Definition slice_from (s : string) (i : Z) : result string :=
  slice s i (len s).

(** [l[i]] and [l[:j]] on a slice of strings *)
Definition item_at (l : list string) (i : Z) : result string :=
  if (0 <=? i) && (i <? Z.of_nat (length l)) then
    match l !! Z.to_nat i with
    | Some x => Ok x
    | None => Panic "index out of range"
    end
  else Panic "index out of range".

Definition items_to (l : list string) (j : Z) : result (list string) :=
  if (0 <=? j) && (j <=? Z.of_nat (length l)) then Ok (take (Z.to_nat j) l)
  else Panic "slice bounds out of range".

(** ** Package strings, at the one-byte separators the router uses *)

(** [strings.Index(s, sep)] for a one-byte [sep]; -1 when absent. *)
Fixpoint strings_Index (s : string) (sep : ascii) : Z :=
  match s with
  | "" => -1
  | String c s' =>
      if Ascii.eqb c sep then 0
      else let i := strings_Index s' sep in
           if i <? 0 then -1 else i + 1
  end.

(** [strings.Contains(s, sep)] is [Index(s, sep) >= 0]. *)
Definition strings_Contains (s : string) (sep : ascii) : bool :=
  0 <=? strings_Index s sep.

(** [strings.Count(s, sep)] for a one-byte [sep]. *)
Fixpoint strings_Count (s : string) (sep : ascii) : Z :=
  match s with
  | "" => 0
  | String c s' =>
      if Ascii.eqb c sep then 1 + strings_Count s' sep
      else strings_Count s' sep
  end.

(** [strings.Split(s, sep)] for a one-byte [sep]: the pieces of [s] between
    the separators, [Count(s, sep) + 1] of them. *)
Fixpoint strings_Split (s : string) (sep : ascii) : list string :=
  match s with
  | "" => [""]
  | String c s' =>
      if Ascii.eqb c sep then "" :: strings_Split s' sep
      else match strings_Split s' sep with
           | seg :: rest => String c seg :: rest
           | [] => [String c ""]
           end
  end.

(** [strings.HasPrefix(s, prefix)]:
    [len(s) >= len(prefix) && s[0:len(prefix)] == prefix]. *)
Definition strings_HasPrefix (s prefix : string) : bool :=
  (len prefix <=? len s)
  && String.eqb (string_take (String.length prefix) s) prefix.

(** ** The pattern matcher *)

(** pathMatchFlat matches exact patterns. *)
Definition pathMatchFlat (pattern path : string) : result bool :=
  let n := len pattern in
  last ← byte_at pattern (n - 1);
  if negb (Ascii.eqb last "/") then
    Ok (String.eqb pattern path)
  else if n <=? len path then
    head ← slice path 0 n;
    Ok (String.eqb head pattern)
  else Ok false.

(** The body of [for i, item := range _pattern] in pathMatchSplat, from
    index [i] on: [Ok false] is the early [return false], [Ok true] the
    fall-through to the final [return true]. *)
Fixpoint matchItems (_path : list string) (i : Z) (items : list string)
  : result bool :=
  match items with
  | [] => Ok true
  | item :: rest =>
      let index := strings_Index item ":" in
      if index =? -1 then
        seg ← item_at _path i;
        if negb (String.eqb item seg) then Ok false
        else matchItems _path (i + 1) rest
      else if index =? 0 then
        matchItems _path (i + 1) rest
      else
        prefix ← slice item 0 index;
        seg ← item_at _path i;
        if negb (strings_HasPrefix seg prefix) then Ok false
        else matchItems _path (i + 1) rest
  end.

(** pathMatchSplat matches patterns with capture groups. *)
Definition pathMatchSplat (pattern path : string) : result bool :=
  let _pattern := strings_Split pattern "/" in
  let slashes := strings_Count pattern "/" in
  last ← byte_at pattern (len pattern - 1);
  '(leadingSlash, slashes, _pattern) ←
    (if Ascii.eqb last "/" then
       let slashes := slashes - 1 in
       _pattern ← items_to _pattern slashes;
       Ok (true, slashes, _pattern)
     else Ok (false, slashes, _pattern));
  let _path := strings_Split path "/" in
  if (leadingSlash : bool) && (Z.of_nat (length _path) <=? slashes) then
    Ok false
  else if negb leadingSlash
          && negb (strings_Count path "/" =? slashes) then
    Ok false
  else matchItems _path 0 _pattern.

(** Does path match pattern? *)
Definition pathMatch (pattern path : string) : result bool :=
  if len pattern =? 0 then Ok false
  else if strings_Contains pattern ":" then pathMatchSplat pattern path
  else pathMatchFlat pattern path.

(** ** Captures *)

(** [url.Values] is [map[string][]string]; [Add] appends to the values of a
    key. *)
Definition Values_Add (key value : string) (v : gmap string (list string))
  : gmap string (list string) :=
  <[key := default [] (v !! key) ++ [value]]> v.

(** The body of [for i, item := range _pattern] in parseSplats, from index
    [i] on, threading [values]. *)
Fixpoint addSplats (_path : list string) (i : Z) (items : list string)
    (values : gmap string (list string)) : result (gmap string (list string)) :=
  match items with
  | [] => Ok values
  | item :: rest =>
      let index := strings_Index item ":" in
      if index =? -1 then
        addSplats _path (i + 1) rest values
      else if index =? 0 then
        seg ← item_at _path i;
        addSplats _path (i + 1) rest (Values_Add item seg values)
      else
        name ← slice_from item index;
        seg ← item_at _path i;
        value ← slice_from seg index;
        addSplats _path (i + 1) rest (Values_Add name value values)
  end.

(** [None] is the nil map returned for a pattern without capture marker;
    [make(url.Values)] is [Some ∅]. *)
Definition parseSplats (pattern path : string)
  : result (option (gmap string (list string))) :=
  let _pattern := strings_Split pattern "/" in
  let _path := strings_Split path "/" in
  if negb (strings_Contains pattern ":") then Ok None
  else
    values ← addSplats _path 0 _pattern ∅;
    Ok (Some values).

(** ** The registry *)

(** The handlers the router stores. What a handler does with a request is
    outside the router; caller-supplied handlers are told apart by a tag.
    [RedirectHandler] and [NotFoundHandler] are those of net/http. A value of
    interface type [http.Handler] is an [option Handler], nil being [None]. *)
Inductive Handler : Type :=
| HandlerFunc (f : nat)
| RedirectHandler (url : string) (code : Z)
| NotFoundHandler.

Global Instance Handler_eq_dec : EqDecision Handler.
Proof. solve_decision. Defined.

Definition StatusMovedPermanently : Z := 301.

Record muxEntry : Type := {
  explicit : bool;
  h : option Handler;
}.

Record ServeMux : Type := {
  m : gmap string muxEntry;
}.

(** NewServeMux allocates and returns a new ServeMux. *)
Definition NewServeMux : ServeMux := {| m := ∅ |}.

(** [mux.m[k]]: the zero [muxEntry] when [k] is absent. *)
Definition entry_at (mux : ServeMux) (k : string) : muxEntry :=
  default {| explicit := false; h := None |} (m mux !! k).

(** How a call ended. *)
Inductive completion : Type :=
| Returned
| Panicked (msg : string).

(** Handle registers the handler for the given pattern. The result is how
    the call ended and the registry it left behind. *)
Definition Handle (pattern : string) (handler : option Handler)
    (mux : ServeMux) : completion * ServeMux :=
  if String.eqb pattern "" then
    (Panicked ("http: invalid pattern " +:+ pattern), mux)
  else if bool_decide (handler = None) then
    (Panicked "http: nil handler", mux)
  else if explicit (entry_at mux pattern) then
    (Panicked ("http: multiple registrations for " +:+ pattern), mux)
  else
    let mux := {| m := <[pattern := {| explicit := true; h := handler |}]>
                         (m mux) |} in
    let n := len pattern in
    let redirect : result (option string) :=
      if 0 <? n then
        last ← byte_at pattern (n - 1);
        if Ascii.eqb last "/" then
          stripped ← slice pattern 0 (n - 1);
          if negb (explicit (entry_at mux stripped)) then Ok (Some stripped)
          else Ok None
        else Ok None
      else Ok None in
    match redirect with
    | Ok (Some stripped) =>
        (Returned,
         {| m := <[stripped :=
                     {| explicit := false;
                        h := Some (RedirectHandler pattern
                                     StatusMovedPermanently) |}]>
                   (m mux) |})
    | Ok None => (Returned, mux)
    | Panic msg => (Panicked msg, mux)
    end.

(** HandleFunc registers the handler function for the given pattern. *)
Definition HandleFunc (pattern : string) (handler : nat) (mux : ServeMux)
  : completion * ServeMux :=
  Handle pattern (Some (HandlerFunc handler)) mux.

(** ** Resolution *)

(** An order in which [for k, v := range mux.m] may visit the map. *)
Definition ranges_over (mux : ServeMux) (order : list (string * muxEntry))
  : Prop :=
  order ≡ₚ map_to_list (m mux).

(** One iteration of the loop of [match], on the locals [n], [pattern]
    and [h]. *)
Definition match_step (path : string) (acc : Z * string * option Handler)
    (kv : string * muxEntry) : result (Z * string * option Handler) :=
  let '(n, pattern, h0) := acc in
  let '(k, v) := kv in
  ok ← pathMatch k path;
  if negb ok then Ok acc
  else if bool_decide (h0 = None) || (n <? len k) then Ok (len k, k, h v)
  else Ok acc.

Fixpoint match_range (path : string) (order : list (string * muxEntry))
    (acc : Z * string * option Handler)
  : result (Z * string * option Handler) :=
  match order with
  | [] => Ok acc
  | kv :: rest =>
      acc ← match_step path acc kv;
      match_range path rest acc
  end.

(** Find a handler on a handler map given a path string.
    Most-specific (longest) pattern wins. *)
Definition ServeMux_match (order : list (string * muxEntry)) (path : string)
  : result (string * option Handler) :=
  '(_, pattern, h0) ← match_range path order (0, "", None);
  Ok (pattern, h0).

Record Request : Type := {
  Method : string;
  Host : string;
  URL_Path : string;
  URL_RawQuery : string;
}.

(** The part of [http.ResponseWriter] the router writes itself. *)
Record ResponseWriter : Type := {
  Header : gmap string (list string);
  Status : option Z;
}.

(** What [ServeHTTP] did: the response as the router left it, and the
    handler it handed the request to, if any, with the request as passed. *)
Record Served : Type := {
  response : ResponseWriter;
  invoked : option (Handler * Request);
}.

Section Router.
(** The library functions the router calls and that are not part of the
    package: [path.Clean] and [url.Values.Encode]. *)
Variable path_Clean : string → string.
Variable Values_Encode : gmap string (list string) → string.

(** Return the canonical path for p, eliminating . and .. elements. *)
Definition cleanPath (p : string) : result string :=
  if String.eqb p "" then Ok "/"
  else
    first ← byte_at p 0;
    let p := if negb (Ascii.eqb first "/") then "/" +:+ p else p in
    let np := path_Clean p in
    last ← byte_at p (len p - 1);
    if Ascii.eqb last "/" && negb (String.eqb np "/") then Ok (np +:+ "/")
    else Ok np.

(** handler returns the handler to use for the request r, and r with the
    captures put in front of its query. [order1] and [order2] are the
    orders of the two scans of the map. *)
Definition handler (order1 order2 : list (string * muxEntry)) (r : Request)
  : result (Handler * Request) :=
  '(pattern, h0) ← ServeMux_match order1 (Host r +:+ URL_Path r);
  '(pattern, h0) ←
    (if bool_decide (h0 = None) then ServeMux_match order2 (URL_Path r)
     else Ok (pattern, h0));
  match h0 with
  | None => Ok (NotFoundHandler, r)
  | Some hd =>
      params ← parseSplats pattern (URL_Path r);
      match params with
      | Some params =>
          Ok (hd, {| Method := Method r; Host := Host r;
                     URL_Path := URL_Path r;
                     URL_RawQuery :=
                       Values_Encode params +:+ "&" +:+ URL_RawQuery r |})
      | None => Ok (hd, r)
      end
  end.

(** ServeHTTP dispatches the request to the handler whose pattern most
    closely matches the request URL. *)
Definition ServeHTTP (order1 order2 : list (string * muxEntry))
    (w : ResponseWriter) (r : Request) : result Served :=
  redirect ←
    (if negb (String.eqb (Method r) "CONNECT") then
       p ← cleanPath (URL_Path r);
       if negb (String.eqb p (URL_Path r)) then Ok (Some p) else Ok None
     else Ok None);
  match redirect with
  | Some p =>
      Ok {| response :=
              {| Header := <["Location" := [p]]> (Header w);
                 Status := Some StatusMovedPermanently |};
            invoked := None |}
  | None =>
      '(hd, r) ← handler order1 order2 r;
      Ok {| response := w; invoked := Some (hd, r) |}
  end.
End Router.

(** Modelled from the spec: [path.Clean] of Go's standard library, which
    cleanPath calls and which is not part of the package. The model follows
    the library's documentation: a run of slashes is one slash, a [.]
    element is dropped, a [..] element removes the element before it, a [..]
    at the start of a rooted path is dropped, and the empty result is ["."].
    [stack] holds the kept elements, last first. *)
Fixpoint clean_elems (rooted : bool) (stack elems : list string)
  : list string :=
  match elems with
  | [] => stack
  | e :: rest =>
      if String.eqb e "" || String.eqb e "." then
        clean_elems rooted stack rest
      else if String.eqb e ".." then
        match stack with
        | top :: below =>
            if String.eqb top ".." then clean_elems rooted (e :: stack) rest
            else clean_elems rooted below rest
        | [] =>
            if rooted then clean_elems rooted [] rest
            else clean_elems rooted [e] rest
        end
      else clean_elems rooted (e :: stack) rest
  end.

Definition go_path_Clean (path : string) : string :=
  match path with
  | "" => "."
  | String c _ =>
      let rooted := Ascii.eqb c "/" in
      let elems := rev (clean_elems rooted [] (strings_Split path "/")) in
      if rooted then "/" +:+ String.concat "/" elems
      else match elems with
           | [] => "."
           | _ => String.concat "/" elems
           end
  end.

Global Instance result_eq_dec {A} `{EqDecision A} : EqDecision (result A).
Proof. solve_decision. Defined.

(** ** Notions the properties are stated with *)

(** A pattern that ends in a slash, and the test the code makes for it,
    [pattern[len(pattern)-1] == '/']. *)
Definition ends_in_slash (p : string) : Prop := ∃ q, p = q +:+ "/".

Definition ends_in_slashb (p : string) : bool :=
  match byte_at p (len p - 1) with
  | Ok c => Ascii.eqb c "/"
  | Panic _ => false
  end.

(** C1 as the specification states it, at one pattern and one path. *)
Definition flat_prefix_claim (p path : string) : Prop :=
  pathMatch p path = Ok true
  ↔ (path = p ∨ p = path +:+ "/" ∨ ∃ r, path = p +:+ r).

(** The pattern with its last byte removed, [pattern[0:n-1]]. *)
Definition stripped (pattern : string) : string :=
  string_take (String.length pattern - 1) pattern.

(** The implicit entry Handle installs for a pattern that ends in '/'. *)
Definition implicit_redirect (pattern : string) : muxEntry :=
  {| explicit := false;
     h := Some (RedirectHandler pattern StatusMovedPermanently) |}.


(** A call of one of the two registration methods. *)
Inductive registration : Type :=
| CallHandle (pattern : string) (handler : option Handler)
| CallHandleFunc (pattern : string) (handler : nat).

Definition register (call : registration) (mux : ServeMux)
  : completion * ServeMux :=
  match call with
  | CallHandle pattern handler => Handle pattern handler mux
  | CallHandleFunc pattern handler => HandleFunc pattern handler mux
  end.

(** The registry after a sequence of calls, each started on the registry
    the one before left behind. *)
Definition register_all (calls : list registration) (mux : ServeMux)
  : ServeMux :=
  foldl (λ mux call, (register call mux).2) mux calls.

(** The registries a program can hold: the fields of ServeMux are private,
    so a registry is what NewServeMux returned, changed by calls of Handle
    (HandleFunc is one such call). *)
Inductive reachable : ServeMux → Prop :=
| reachable_new : reachable NewServeMux
| reachable_Handle pattern handler mux :
    reachable mux → reachable (Handle pattern handler mux).2.

Definition no_nil_handlers (mux : ServeMux) : Prop :=
  ∀ k e, m mux !! k = Some e → h e ≠ None.

(** The locals of the loop of [match] once the entries [seen] have been
    visited, when no entry holds a nil handler: either nothing matched yet
    and the locals are untouched, or they hold a matching entry of [seen]
    that no matching entry of [seen] exceeds in length. *)
Definition best_so_far (path : string) (seen : list (string * muxEntry))
    (acc : Z * string * option Handler) : Prop :=
  (acc = (0, "", None)
   ∧ ∀ k' e', (k', e') ∈ seen → pathMatch k' path ≠ Ok true)
  ∨ (∃ k e, acc = (len k, k, h e) ∧ h e ≠ None ∧ (k, e) ∈ seen
            ∧ pathMatch k path = Ok true
            ∧ ∀ k' e', (k', e') ∈ seen → pathMatch k' path = Ok true →
                       len k' ≤ len k).

(** [value] is among the values of [name]. *)
Definition bound (values : gmap string (list string)) (name value : string)
  : Prop :=
  value ∈ default [] (values !! name).

(** The registry of the documentation's example: ["/images/"] and
    ["/images/thumbnails/"] registered on a new ServeMux. *)
Definition images_mux (hd1 hd2 : Handler) : ServeMux :=
  (Handle "/images/thumbnails/" (Some hd2)
     (Handle "/images/" (Some hd1) NewServeMux).2).2.



(** The scenario of the specification: ["/tree/"] registered on a new
    ServeMux, then ["/tree"] registered explicitly. *)
Definition tree_mux1 : ServeMux :=
  (Handle "/tree/" (Some (HandlerFunc 1)) NewServeMux).2.

Definition tree_mux2 : ServeMux :=
  (Handle "/tree" (Some (HandlerFunc 2)) tree_mux1).2.

(** ["/x/user-:id/"] registered on a new ServeMux. *)
Definition user_mux : ServeMux :=
  (Handle "/x/user-:id/" (Some (HandlerFunc 1)) NewServeMux).2.

Definition user_request : Request :=
  {| Method := "GET"; Host := "example.com"; URL_Path := "/x/abc/y";
     URL_RawQuery := "" |}.

(** A pattern segment against the path segment at the same position, as
    one turn of the loop of pathMatchSplat decides it: a segment without
    marker must equal the path segment, a segment that starts with the
    marker accepts any path segment, and a segment with the marker further
    in needs the path segment to start with its text before the marker. *)
Definition segment_matches (item seg : string) : Prop :=
  let index := strings_Index item ":" in
  if decide (index = -1) then item = seg
  else if decide (index = 0) then True
  else ∃ r, seg = string_take (Z.to_nat index) item +:+ r.

(** What holds of every entry of a registry built by the package: its
    handler is not nil, an explicit entry has a non-empty pattern, and an
    implicit entry is the permanent redirect to its pattern followed by a
    slash, which is registered explicitly. *)
Definition entry_wf (mux : ServeMux) (k : string) (e : muxEntry) : Prop :=
  h e ≠ None
  ∧ (explicit e = true → k ≠ "")
  ∧ (explicit e = false →
     e = implicit_redirect (k +:+ "/")
     ∧ ∃ hd, m mux !! (k +:+ "/") = Some {| explicit := true; h := Some hd |}).

(** Registries of the examples: two templates of the same length, a
    host-specific pattern beside a general one, and a host with a port. *)
Definition tie_mux : ServeMux :=
  (Handle "/:b" (Some (HandlerFunc 2))
     (Handle "/:a" (Some (HandlerFunc 1)) NewServeMux).2).2.

Definition host_mux : ServeMux :=
  (Handle "example.com/admin/" (Some (HandlerFunc 2))
     (Handle "/admin/" (Some (HandlerFunc 1)) NewServeMux).2).2.

Definition port_mux : ServeMux :=
  (Handle "localhost:8080/foo" (Some (HandlerFunc 1)) NewServeMux).2.

(** * Properties *)

(** ** Strings *)

Lemma len_nonneg (s : string) : 0 ≤ len s.
Proof. unfold len. lia. Qed.

Lemma len_String (c : ascii) (s : string) : len (String c s) = len s + 1.
Proof. unfold len. simpl. lia. Qed.

Lemma len_app (s t : string) : len (s +:+ t) = len s + len t.
Proof.
  induction s as [|c s IH]; simpl.
  - unfold len at 2. simpl. lia.
  - rewrite !len_String, IH. lia.
Qed.

Lemma len_zero (s : string) : len s = 0 → s = "".
Proof. destruct s; [done|]. rewrite len_String. pose proof (len_nonneg s). lia. Qed.

Lemma len_pos (s : string) : s ≠ "" → 0 < len s.
Proof. destruct s; [done|]. rewrite len_String. pose proof (len_nonneg s). lia. Qed.

Lemma string_app_nil_r (s : string) : s +:+ "" = s.
Proof. induction s as [|c s IH]; simpl; [done|]. by rewrite IH. Qed.

Lemma string_app_assoc (s t u : string) : (s +:+ t) +:+ u = s +:+ (t +:+ u).
Proof. induction s as [|c s IH]; simpl; [done|]. by rewrite IH. Qed.

Lemma string_take_app (p r : string) :
  string_take (String.length p) (p +:+ r) = p.
Proof. induction p as [|c p IH]; simpl; [by destruct r|]. by rewrite IH. Qed.

Lemma string_take_drop (n : nat) (s : string) :
  string_take n s +:+ string_drop n s = s.
Proof.
  revert s. induction n as [|n IH]; intros [|c s]; simpl; try done.
  by rewrite IH.
Qed.

Lemma string_take_all (s : string) : string_take (String.length s) s = s.
Proof. induction s as [|c s IH]; simpl; [done|]. by rewrite IH. Qed.

Lemma string_drop_len (n : nat) (s : string) :
  (n ≤ String.length s)%nat →
  String.length (string_drop n s) = (String.length s - n)%nat.
Proof.
  revert s. induction n as [|n IH]; intros [|c s] Hn; simpl in *; try done.
  apply IH. lia.
Qed.

Lemma string_take_len (n : nat) (s : string) :
  (n ≤ String.length s)%nat → String.length (string_take n s) = n.
Proof.
  revert s. induction n as [|n IH]; intros [|c s] Hn; simpl in *; try done.
  - lia.
  - rewrite IH; [done|lia].
Qed.

(** [s[0:n] == p] under [n = len(p) <= len(s)] says that [s] starts with
    [p]. *)
Lemma string_take_prefix (s p : string) :
  string_take (String.length p) s = p ↔ ∃ r, s = p +:+ r.
Proof.
  split.
  - intros Hp. exists (string_drop (String.length p) s).
    rewrite <- Hp at 1. by rewrite string_take_drop.
  - intros [r ->]. apply string_take_app.
Qed.

Lemma strings_HasPrefix_spec (s p : string) :
  strings_HasPrefix s p = true ↔ ∃ r, s = p +:+ r.
Proof.
  unfold strings_HasPrefix. rewrite andb_true_iff, String.eqb_eq.
  rewrite string_take_prefix. split; [tauto|].
  intros [r ->]. split; [|by eexists].
  rewrite len_app. pose proof (len_nonneg r). lia.
Qed.

Lemma byte_at_String_S (c : ascii) (s : string) (i : Z) :
  0 ≤ i → byte_at (String c s) (i + 1) = byte_at s i.
Proof.
  intros Hi. unfold byte_at. rewrite len_String.
  replace (Z.to_nat (i + 1)) with (S (Z.to_nat i)) by lia. simpl.
  destruct (0 <=? i) eqn:?, (i <? len s) eqn:?,
    (0 <=? i + 1) eqn:?, (i + 1 <? len s + 1) eqn:?; simpl; try done; lia.
Qed.

Lemma byte_at_returns (s : string) (i : Z) :
  0 ≤ i < len s → returns (byte_at s i).
Proof.
  revert i. induction s as [|c s IH]; intros i Hi.
  - unfold len in Hi. simpl in Hi. lia.
  - destruct (decide (i = 0)) as [->|].
    + by exists c.
    + replace i with ((i - 1) + 1) by lia. rewrite byte_at_String_S by lia.
      apply IH. rewrite len_String in Hi. lia.
Qed.

(** The last byte of a string that ends in [c]. *)
Lemma byte_at_last (q : string) (c : ascii) :
  byte_at (q +:+ String c "") (len (q +:+ String c "") - 1) = Ok c.
Proof.
  induction q as [|d q IH]; simpl; [done|].
  rewrite len_String.
  replace (len (q +:+ String c "") + 1 - 1)
    with ((len (q +:+ String c "") - 1) + 1) by lia.
  rewrite byte_at_String_S; [done|].
  rewrite len_app, len_String. pose proof (len_nonneg q). unfold len at 2. simpl. lia.
Qed.

Lemma byte_at_last_inv (s : string) (c : ascii) :
  byte_at s (len s - 1) = Ok c → ∃ q, s = q +:+ String c "".
Proof.
  induction s as [|d s IH]; intros Hb; [done|].
  destruct s as [|e s].
  - exists "". simpl. by injection Hb as ->.
  - rewrite len_String in Hb.
    replace (len (String e s) + 1 - 1) with ((len (String e s) - 1) + 1) in Hb
      by lia.
    rewrite byte_at_String_S in Hb
      by (rewrite len_String; pose proof (len_nonneg s); lia).
    destruct (IH Hb) as [q Hq]. exists (String d q). simpl. by rewrite <- Hq.
Qed.

Lemma ends_in_slash_last (p : string) :
  ends_in_slash p ↔ byte_at p (len p - 1) = Ok "/"%char.
Proof.
  split.
  - intros [q ->]. apply byte_at_last.
  - apply byte_at_last_inv.
Qed.

Lemma ends_in_slashb_spec (p : string) :
  ends_in_slashb p = true ↔ ends_in_slash p.
Proof.
  rewrite ends_in_slash_last. unfold ends_in_slashb.
  destruct (byte_at p (len p - 1)) as [c|]; [|done].
  destruct (Ascii.eqb_spec c "/"); split; congruence.
Qed.

Lemma slice_0_spec (s : string) (n : Z) :
  0 ≤ n ≤ len s → slice s 0 n = Ok (string_take (Z.to_nat n) s).
Proof.
  intros Hn. unfold slice.
  destruct (0 <=? 0) eqn:?, (0 <=? n) eqn:?, (n <=? len s) eqn:?; simpl;
    try lia.
  by rewrite Z.sub_0_r.
Qed.

Lemma slice_from_spec (s : string) (i : Z) :
  0 ≤ i ≤ len s → slice_from s i = Ok (string_drop (Z.to_nat i) s).
Proof.
  intros Hi. unfold slice_from, slice.
  destruct (0 <=? i) eqn:?, (i <=? len s) eqn:?, (len s <=? len s) eqn:?;
    simpl; try lia.
  f_equal. rewrite <- (string_take_all (string_drop (Z.to_nat i) s)) at 2.
  f_equal. rewrite string_drop_len by (unfold len in Hi; lia).
  unfold len. lia.
Qed.

Lemma returns_Ok {A} (a : A) : returns (Ok a).
Proof. by exists a. Qed.
#[local] Hint Resolve returns_Ok : core.

Lemma item_at_lookup (l : list string) (i : nat) (x : string) :
  l !! i = Some x → item_at l (Z.of_nat i) = Ok x.
Proof.
  intros Hx. unfold item_at. rewrite Nat2Z.id, Hx.
  apply lookup_lt_Some in Hx.
  destruct (0 <=? Z.of_nat i) eqn:?, (Z.of_nat i <? Z.of_nat (length l)) eqn:?;
    simpl; try done; lia.
Qed.

Lemma item_at_returns (l : list string) (i : Z) :
  0 ≤ i < Z.of_nat (length l) → returns (item_at l i).
Proof.
  intros Hi. destruct (lookup_lt_is_Some_2 l (Z.to_nat i)) as [x Hx]; [lia|].
  exists x. rewrite <- (Z2Nat.id i) by lia. by apply item_at_lookup.
Qed.

Lemma item_at_Ok (l : list string) (i : Z) (x : string) :
  item_at l i = Ok x → 0 ≤ i ∧ l !! Z.to_nat i = Some x.
Proof.
  unfold item_at. destruct (0 <=? i) eqn:?; simpl; [|done].
  destruct (_ <? _); [|done]. destruct (l !! Z.to_nat i); [|done].
  intros [= ->]. split; [lia|done].
Qed.

Lemma strings_Index_range (s : string) (c : ascii) :
  strings_Index s c = -1 ∨ 0 ≤ strings_Index s c < len s.
Proof.
  induction s as [|d s IH]; simpl; [by left|].
  rewrite len_String. pose proof (len_nonneg s).
  destruct (Ascii.eqb d c); [right; lia|].
  destruct (strings_Index s c <? 0) eqn:?; [by left|]. right. lia.
Qed.

(** [Index] finds the first occurrence: the bytes before it differ from
    [c], the byte at it is [c]. *)
Lemma strings_Index_found (s : string) (c : ascii) :
  0 ≤ strings_Index s c →
  ∃ a b, s = a +:+ String c b ∧ len a = strings_Index s c
         ∧ strings_Index a c = -1.
Proof.
  induction s as [|d s IH]; simpl; [lia|].
  destruct (Ascii.eqb_spec d c) as [->|Hdc].
  - intros _. by exists "", s.
  - destruct (strings_Index s c <? 0) eqn:Hneg; [lia|]. intros _.
    destruct IH as (a & b & -> & Hlen & Hnone); [lia|].
    exists (String d a), b. rewrite len_String, Hlen. simpl.
    split_and!; [done..|].
    destruct (Ascii.eqb_spec d c); [done|]. by rewrite Hnone.
Qed.

Lemma strings_Index_absent (a b : string) (c : ascii) :
  strings_Index (a +:+ String c b) c ≠ -1.
Proof.
  induction a as [|d a IH]; simpl.
  - by rewrite Ascii.eqb_refl.
  - destruct (Ascii.eqb d c); [done|].
    destruct (strings_Index_range (a +:+ String c b) c) as [?|?]; [done|].
    destruct (_ <? 0) eqn:?; lia.
Qed.

Lemma strings_Contains_spec (s : string) (c : ascii) :
  strings_Contains s c = true ↔ ∃ a b, s = a +:+ String c b.
Proof.
  unfold strings_Contains. rewrite Z.leb_le. split.
  - intros Hi. destruct (strings_Index_found s c Hi) as (a & b & ? & _).
    by exists a, b.
  - intros (a & b & ->).
    pose proof (strings_Index_absent a b c).
    destruct (strings_Index_range (a +:+ String c b) c); [done|lia].
Qed.

Lemma strings_Count_nonneg (s : string) (c : ascii) : 0 ≤ strings_Count s c.
Proof. induction s as [|d s IH]; simpl; [done|]. destruct (Ascii.eqb d c); lia. Qed.

Lemma strings_Split_length (s : string) (c : ascii) :
  Z.of_nat (length (strings_Split s c)) = strings_Count s c + 1.
Proof.
  induction s as [|d s IH]; simpl; [done|].
  destruct (Ascii.eqb d c); simpl; [lia|].
  pose proof (strings_Count_nonneg s c).
  destruct (strings_Split s c); simpl in *; lia.
Qed.

Lemma strings_Count_app (s t : string) (c : ascii) :
  strings_Count (s +:+ t) c = strings_Count s c + strings_Count t c.
Proof.
  induction s as [|d s IH]; simpl; [done|].
  destruct (Ascii.eqb d c); lia.
Qed.

Lemma ends_in_slash_Count (p : string) :
  ends_in_slash p → 1 ≤ strings_Count p "/".
Proof.
  intros [q ->]. rewrite strings_Count_app. simpl.
  pose proof (strings_Count_nonneg q "/"). lia.
Qed.

(** ** The matcher never faults *)

Lemma pathMatchFlat_slash (q path : string) :
  pathMatchFlat (q +:+ "/") path = Ok (strings_HasPrefix path (q +:+ "/")).
Proof.
  unfold pathMatchFlat, strings_HasPrefix. rewrite byte_at_last. simpl.
  destruct (len (q +:+ "/") <=? len path) eqn:Hlen; [|done].
  rewrite slice_0_spec by (pose proof (len_nonneg (q +:+ "/")); lia).
  simpl. unfold len. by rewrite Nat2Z.id.
Qed.

Lemma pathMatchFlat_returns (pattern path : string) :
  pattern ≠ "" → returns (pathMatchFlat pattern path).
Proof.
  intros Hne. unfold pathMatchFlat.
  destruct (byte_at_returns pattern (len pattern - 1)) as [c Hc].
  { pose proof (len_pos pattern Hne). lia. }
  rewrite Hc. simpl. destruct (Ascii.eqb_spec c "/") as [->|?]; simpl; [|done].
  apply byte_at_last_inv in Hc as [q ->]. 
  pose proof (pathMatchFlat_slash q path) as Hflat.
  unfold pathMatchFlat in Hflat. rewrite byte_at_last in Hflat.
  simpl in Hflat. rewrite Hflat. done.
Qed.

Lemma matchItems_returns (_path items : list string) (i : Z) :
  0 ≤ i → i + Z.of_nat (length items) ≤ Z.of_nat (length _path) →
  returns (matchItems _path i items).
Proof.
  revert i. induction items as [|item rest IH]; intros i Hi Hlen; simpl;
    [done|].
  simpl in Hlen.
  assert (returns (matchItems _path (i + 1) rest)) as Hrest
    by (apply IH; lia).
  destruct (item_at_returns _path i) as [seg Hseg]; [lia|].
  destruct (strings_Index item ":" =? -1) eqn:Hm1.
  { rewrite Hseg. simpl. by destruct (negb _). }
  destruct (strings_Index item ":" =? 0) eqn:H0; [done|].
  destruct (strings_Index_range item ":") as [?|Hr]; [lia|].
  rewrite slice_0_spec by lia. simpl. rewrite Hseg. simpl.
  by destruct (negb _).
Qed.

Lemma pathMatchSplat_returns (pattern path : string) :
  pattern ≠ "" → returns (pathMatchSplat pattern path).
Proof.
  intros Hne. unfold pathMatchSplat.
  destruct (byte_at_returns pattern (len pattern - 1)) as [c Hc].
  { pose proof (len_pos pattern Hne). lia. }
  rewrite Hc. simpl.
  pose proof (strings_Split_length pattern "/") as Hsp.
  pose proof (strings_Split_length path "/") as Hsq.
  destruct (Ascii.eqb_spec c "/") as [->|?]; simpl.
  - apply ends_in_slash_last, ends_in_slash_Count in Hc.
    unfold items_to.
    destruct (0 <=? _) eqn:?, (_ <=? Z.of_nat _) eqn:?; simpl; try lia.
    case_match; [done|].
    apply matchItems_returns; [done|]. rewrite length_take. lia.
  - destruct (Z.eqb_spec (strings_Count path "/") (strings_Count pattern "/"));
      simpl; [|done].
    apply matchItems_returns; [done|]. lia.
Qed.

Lemma pathMatch_returns (pattern path : string) :
  returns (pathMatch pattern path).
Proof.
  unfold pathMatch. destruct (len pattern =? 0) eqn:Hz; [done|].
  assert (pattern ≠ "") by (intros ->; done).
  destruct (strings_Contains pattern ":").
  - by apply pathMatchSplat_returns.
  - by apply pathMatchFlat_returns.
Qed.

Lemma pathMatch_flat (p path : string) :
  p ≠ "" → strings_Contains p ":" = false →
  pathMatch p path = pathMatchFlat p path.
Proof.
  intros Hne Hflat. unfold pathMatch. rewrite Hflat.
  pose proof (len_pos p Hne). by destruct (Z.eqb_spec (len p) 0); [lia|].
Qed.

Lemma pathMatch_templated (p path : string) :
  strings_Contains p ":" = true →
  pathMatch p path = pathMatchSplat p path.
Proof.
  intros Htpl. unfold pathMatch. rewrite Htpl.
  destruct (Z.eqb_spec (len p) 0) as [Hz|]; [|done].
  apply len_zero in Hz as ->. done.
Qed.

Lemma ends_in_slash_nonempty (p : string) : ends_in_slash p → p ≠ "".
Proof. intros [[|c q] ->]; done. Qed.

(** The two forms of a templated pattern, with the bounds checks of the
    code discharged. *)
Lemma pathMatchSplat_prefix_form (p path : string) :
  ends_in_slash p →
  pathMatchSplat p path =
    let slashes := strings_Count p "/" - 1 in
    if Z.of_nat (length (strings_Split path "/")) <=? slashes then Ok false
    else matchItems (strings_Split path "/") 0
           (take (Z.to_nat slashes) (strings_Split p "/")).
Proof.
  intros Hp. unfold pathMatchSplat.
  pose proof (ends_in_slash_Count p Hp) as Hc.
  pose proof (strings_Split_length p "/") as Hsp.
  apply ends_in_slash_last in Hp as ->. simpl. unfold items_to.
  destruct (Z.leb_spec 0 (strings_Count p "/" - 1)); [|lia].
  destruct (Z.leb_spec (strings_Count p "/" - 1)
              (Z.of_nat (length (strings_Split p "/")))); [|lia].
  done.
Qed.

Lemma pathMatchSplat_exact_form (p path : string) :
  p ≠ "" → ¬ ends_in_slash p →
  pathMatchSplat p path =
    if negb (strings_Count path "/" =? strings_Count p "/") then Ok false
    else matchItems (strings_Split path "/") 0 (strings_Split p "/").
Proof.
  intros Hne Hp. unfold pathMatchSplat.
  destruct (byte_at_returns p (len p - 1)) as [c Hc].
  { pose proof (len_pos p Hne). lia. }
  rewrite Hc. simpl. destruct (Ascii.eqb_spec c "/") as [->|?]; [|done].
  by apply ends_in_slash_last in Hc.
Qed.

(** ** Flat patterns with a trailing slash *)

(** C1, counterexample: the flat pattern ["/hello/"] does not match
    ["/hello"], the pattern with its trailing slash removed (case 4 of the
    package's own test table), so the stated equivalence fails there. *)
Lemma flat_prefix_claim_fails :
  ends_in_slash "/hello/" ∧ strings_Contains "/hello/" ":" = false
  ∧ pathMatch "/hello/" "/hello" = Ok false
  ∧ ¬ flat_prefix_claim "/hello/" "/hello".
Proof.
  split_and!; [by exists "/hello"|done|done|].
  intros [_ Hclaim]. by discriminate Hclaim; right; left.
Qed.

(** C1, amended: a pattern that ends in '/' and has no capture marker
    matches exactly the paths that start with the whole pattern (the
    pattern itself among them); the pattern with its trailing slash removed
    is not matched. *)
Theorem flat_prefix_match (p path : string) :
  ends_in_slash p → strings_Contains p ":" = false →
  (pathMatch p path = Ok true ↔ ∃ r, path = p +:+ r)
  ∧ (pathMatch p path = Ok false ↔ ¬ ∃ r, path = p +:+ r)
  ∧ pathMatch p p = Ok true
  ∧ ∀ q, p = q +:+ "/" → pathMatch p q = Ok false.
Proof.
  intros Hp Hflat.
  assert (∀ s, pathMatch p s = Ok (strings_HasPrefix s p)) as Hm.
  { intros s. rewrite pathMatch_flat by eauto using ends_in_slash_nonempty.
    destruct Hp as [q ->]. apply pathMatchFlat_slash. }
  assert (∀ s, pathMatch p s = Ok false ↔ ¬ ∃ r, s = p +:+ r) as Hf.
  { intros s. rewrite Hm, <- strings_HasPrefix_spec.
    destruct (strings_HasPrefix s p); split; congruence. }
  split_and!.
  - rewrite Hm, <- strings_HasPrefix_spec. split; congruence.
  - apply Hf.
  - rewrite Hm. f_equal. apply strings_HasPrefix_spec. exists "".
    by rewrite string_app_nil_r.
  - intros q ->. apply Hf. intros [r Hr].
    apply (f_equal len) in Hr. rewrite !len_app in Hr.
    pose proof (len_nonneg r). unfold len in Hr at 3. simpl in Hr. lia.
Qed.

Lemma flat_prefix_match_witness :
  pathMatch "/hello/" "/hello/whatever" = Ok true
  ∧ pathMatch "/hello/" "/hello" = Ok false.
Proof.
  assert (ends_in_slash "/hello/") as Hp by (by exists "/hello").
  assert (strings_Contains "/hello/" ":" = false) as Hflat by reflexivity.
  destruct (flat_prefix_match "/hello/" "/hello/whatever" Hp Hflat)
    as (Hyes & _).
  destruct (flat_prefix_match "/hello/" "/hello" Hp Hflat)
    as (_ & _ & _ & Hno).
  split; [apply Hyes; by exists "whatever"|by apply Hno].
Defined.

(** ** Arity of templated patterns *)

(** C4: a templated pattern without trailing slash matches only paths with
    the same number of slashes; one with a trailing slash matches only
    paths with strictly more slash-delimited segments than its slash count
    minus one; when the requirement fails the result is false. *)
Theorem templated_arity (p s : string) :
  strings_Contains p ":" = true →
  (¬ ends_in_slash p →
     (pathMatch p s = Ok true → strings_Count s "/" = strings_Count p "/")
     ∧ (strings_Count s "/" ≠ strings_Count p "/" → pathMatch p s = Ok false))
  ∧ (ends_in_slash p →
     (pathMatch p s = Ok true →
        strings_Count p "/" - 1 < Z.of_nat (length (strings_Split s "/")))
     ∧ (Z.of_nat (length (strings_Split s "/")) ≤ strings_Count p "/" - 1 →
        pathMatch p s = Ok false)).
Proof.
  intros Htpl. rewrite pathMatch_templated by done.
  assert (p ≠ "") as Hne by (by intros ->).
  split; intros Hp.
  - rewrite pathMatchSplat_exact_form by done.
    destruct (Z.eqb_spec (strings_Count s "/") (strings_Count p "/"));
      simpl; split; done.
  - rewrite pathMatchSplat_prefix_form by done. simpl.
    destruct (Z.leb_spec (Z.of_nat (length (strings_Split s "/")))
                (strings_Count p "/" - 1)); split; (done || lia).
Qed.

Lemma templated_arity_witness :
  pathMatch "/:a" "/hello/world" = Ok false
  ∧ strings_Count "/hello" "/" = strings_Count "/:a" "/"
  ∧ pathMatch "/hello/:a/" "/hello" = Ok false
  ∧ strings_Count "/:a/" "/" - 1
    < Z.of_nat (length (strings_Split "/hello/world" "/")).
Proof.
  assert (¬ ends_in_slash "/:a") as Hexact
    by (by intros ?%ends_in_slashb_spec).
  assert (ends_in_slash "/hello/:a/") as Hprefix by (by exists "/hello/:a").
  assert (ends_in_slash "/:a/") as Hprefix' by (by exists "/:a").
  destruct (templated_arity "/:a" "/hello/world" eq_refl) as [He1 _].
  destruct (templated_arity "/:a" "/hello" eq_refl) as [He2 _].
  destruct (templated_arity "/hello/:a/" "/hello" eq_refl) as [_ Hp1].
  destruct (templated_arity "/:a/" "/hello/world" eq_refl) as [_ Hp2].
  split_and!.
  - by apply He1.
  - by apply He2.
  - apply Hp1; [done|]. vm_compute. discriminate.
  - by apply Hp2.
Defined.

(** ** Registration *)

Lemma stripped_app (q : string) (c : ascii) : stripped (q +:+ String c "") = q.
Proof.
  unfold stripped.
  replace (String.length (q +:+ String c "") - 1)%nat with (String.length q).
  - apply string_take_app.
  - pose proof (len_app q (String c "")) as Hl. unfold len in Hl.
    simpl in Hl. lia.
Qed.

Lemma stripped_ne (pattern : string) : pattern ≠ "" → stripped pattern ≠ pattern.
Proof.
  intros Hne Heq. apply (f_equal String.length) in Heq.
  unfold stripped in Heq. pose proof (len_pos pattern Hne) as Hpos.
  unfold len in Hpos. rewrite string_take_len in Heq; lia.
Qed.

Lemma slice_stripped (pattern : string) :
  pattern ≠ "" → slice pattern 0 (len pattern - 1) = Ok (stripped pattern).
Proof.
  intros Hne. pose proof (len_pos pattern Hne).
  rewrite slice_0_spec by lia. unfold stripped, len. do 2 f_equal. lia.
Qed.

Lemma entry_at_insert_ne (mm : gmap string muxEntry) (k k' : string)
    (e : muxEntry) :
  k ≠ k' → entry_at {| m := <[k := e]> mm |} k' = entry_at {| m := mm |} k'.
Proof. intros Hne. unfold entry_at. simpl. by rewrite lookup_insert_ne. Qed.

(** Handle on a call that passes its three checks. *)
Lemma Handle_accepts (pattern : string) (hd : Handler) (mux : ServeMux) :
  pattern ≠ "" → explicit (entry_at mux pattern) = false →
  Handle pattern (Some hd) mux =
    (Returned,
     let m1 := <[pattern := {| explicit := true; h := Some hd |}]> (m mux) in
     {| m := if ends_in_slashb pattern
                && negb (explicit (entry_at mux (stripped pattern)))
             then <[stripped pattern := implicit_redirect pattern]> m1
             else m1 |}).
Proof.
  intros Hne Hfree. unfold Handle.
  destruct (String.eqb_spec pattern "") as [|_]; [done|].
  rewrite bool_decide_eq_false_2 by done. rewrite Hfree.
  pose proof (len_pos pattern Hne) as Hpos.
  destruct (Z.ltb_spec 0 (len pattern)); [|lia].
  destruct (byte_at_returns pattern (len pattern - 1)) as [c Hc]; [lia|].
  unfold ends_in_slashb. rewrite Hc. simpl.
  destruct (Ascii.eqb c "/"); [|done].
  rewrite slice_stripped by done. simpl.
  rewrite entry_at_insert_ne by (by apply not_eq_sym, stripped_ne).
  destruct mux as [mm]. simpl.
  by destruct (explicit (entry_at _ (stripped pattern))).
Qed.

(** Handle on a call that fails one of its three checks. *)
Lemma Handle_rejects (pattern : string) (handler : option Handler)
    (mux : ServeMux) :
  pattern = "" ∨ handler = None ∨ explicit (entry_at mux pattern) = true →
  ∃ msg, Handle pattern handler mux = (Panicked msg, mux).
Proof.
  intros Hbad. unfold Handle.
  destruct (String.eqb_spec pattern ""); [by eexists|].
  case_bool_decide; [by eexists|].
  destruct (explicit (entry_at mux pattern)); [by eexists|].
  by destruct Hbad as [?|[?|?]].
Qed.



Lemma entry_at_lookup (mux : ServeMux) (k : string) (e : muxEntry) :
  m mux !! k = Some e → entry_at mux k = e.
Proof. intros Hk. unfold entry_at. by rewrite Hk. Qed.

Lemma Handle_keeps_explicit (pattern : string) (handler : option Handler)
    (mux : ServeMux) (k : string) (e : muxEntry) :
  m mux !! k = Some e → explicit e = true →
  m (Handle pattern handler mux).2 !! k = Some e.
Proof.
  intros Hk He.
  destruct (decide (pattern = "" ∨ handler = None
                    ∨ explicit (entry_at mux pattern) = true)) as [Hbad|Hok].
  { by apply Handle_rejects in Hbad as [msg ->]. }
  destruct handler as [hd|]; [|tauto].
  assert (explicit (entry_at mux pattern) = false) as Hfree
    by (destruct (explicit (entry_at mux pattern)); tauto).
  rewrite Handle_accepts by tauto. simpl.
  assert (pattern ≠ k) as Hpk.
  { intros ->. apply entry_at_lookup in Hk. congruence. }
  destruct (ends_in_slashb pattern && negb _) eqn:Hred.
  - apply andb_true_iff in Hred as [_ Hred%negb_true_iff].
    assert (stripped pattern ≠ k) as Hsk.
    { intros Heq. rewrite Heq in Hred. apply entry_at_lookup in Hk.
      congruence. }
    by rewrite !lookup_insert_ne.
  - by rewrite lookup_insert_ne.
Qed.

(** C10: an explicit entry is never changed or removed by later Handle or
    HandleFunc calls. A second explicit registration of its pattern panics
    and leaves the registry as it was, and whatever entry one call changes
    or removes was not explicit. *)
Theorem explicit_entry_stable (mux : ServeMux) (k : string) (e : muxEntry) :
  m mux !! k = Some e → explicit e = true →
  (∀ calls, m (register_all calls mux) !! k = Some e)
  ∧ (∀ handler, ∃ msg, Handle k handler mux = (Panicked msg, mux))
  ∧ (∀ f, ∃ msg, HandleFunc k f mux = (Panicked msg, mux))
  ∧ (∀ call k' e', m mux !! k' = Some e' →
       m (register call mux).2 !! k' ≠ Some e' → explicit e' = false).
Proof.
  intros Hk He.
  assert (∀ call mux' k' e', m mux' !! k' = Some e' → explicit e' = true →
            m (register call mux').2 !! k' = Some e') as Hstep.
  { intros [pattern handler|pattern f] mux' k' e' Hk' He'; simpl;
      by apply Handle_keeps_explicit. }
  assert (∀ handler, ∃ msg, Handle k handler mux = (Panicked msg, mux))
    as Hdup.
  { intros handler. apply Handle_rejects. right. right.
    by rewrite (entry_at_lookup mux k e). }
  split_and!; [|done|intros f; apply Hdup|].
  - intros calls. clear Hdup. revert mux Hk.
    induction calls as [|call calls IH]; intros mux Hk; [done|].
    simpl. apply IH. by apply Hstep.
  - intros call k' e' Hk' Hchanged.
    destruct (explicit e') eqn:He'; [|done].
    by rewrite (Hstep call mux k' e') in Hchanged.
Qed.

Lemma explicit_entry_stable_witness :
  m (register_all
       [CallHandle "/tree" (Some (HandlerFunc 2));
        CallHandle "/tree/" (Some (HandlerFunc 3));
        CallHandleFunc "/tree" 4]
       (Handle "/tree" (Some (HandlerFunc 1)) NewServeMux).2) !! "/tree"
  = Some {| explicit := true; h := Some (HandlerFunc 1) |}.
Proof.
  by apply (explicit_entry_stable
              (Handle "/tree" (Some (HandlerFunc 1)) NewServeMux).2 "/tree"
              {| explicit := true; h := Some (HandlerFunc 1) |}).
Defined.

(** ** Registries built by the package *)

Lemma Handle_cases (pattern : string) (handler : option Handler)
    (mux : ServeMux) :
  (Handle pattern handler mux).2 = mux
  ∨ ∃ hd, handler = Some hd ∧ pattern ≠ ""
          ∧ explicit (entry_at mux pattern) = false.
Proof.
  destruct (decide (pattern = "" ∨ handler = None
                    ∨ explicit (entry_at mux pattern) = true)) as [Hbad|Hok].
  { left. by apply Handle_rejects in Hbad as [msg ->]. }
  right. destruct handler as [hd|]; [|tauto]. exists hd.
  destruct (explicit (entry_at mux pattern)); tauto.
Qed.

Lemma Handle_no_nil (pattern : string) (handler : option Handler)
    (mux : ServeMux) :
  no_nil_handlers mux → no_nil_handlers (Handle pattern handler mux).2.
Proof.
  intros Hmux.
  destruct (Handle_cases pattern handler mux)
    as [->|(hd & -> & Hne & Hfree)]; [done|].
  rewrite Handle_accepts by done. simpl. intros k e.
  case_match; simpl; rewrite ?lookup_insert_Some; intros Hk.
  - destruct Hk as [[_ <-]|[_ [[_ <-]|[_ Hk]]]]; [done..|]. by eapply Hmux.
  - destruct Hk as [[_ <-]|[_ Hk]]; [done|]. by eapply Hmux.
Qed.

Lemma reachable_no_nil (mux : ServeMux) : reachable mux → no_nil_handlers mux.
Proof.
  induction 1 as [|pattern handler mux _ IH].
  - intros k e Hk. simpl in Hk. by rewrite lookup_empty in Hk.
  - by apply Handle_no_nil.
Qed.

(** ** Resolution picks a longest matching pattern *)

Lemma ranges_over_elem (mux : ServeMux) (order : list (string * muxEntry))
    (k : string) (e : muxEntry) :
  ranges_over mux order → (k, e) ∈ order ↔ m mux !! k = Some e.
Proof. intros ->. apply elem_of_map_to_list. Qed.

Lemma match_step_best (path : string) (seen : list (string * muxEntry))
    (acc : Z * string * option Handler) (kv : string * muxEntry) :
  h kv.2 ≠ None → best_so_far path seen acc →
  ∃ acc', match_step path acc kv = Ok acc'
          ∧ best_so_far path (seen ++ [kv]) acc'.
Proof.
  intros Hnil Hacc. destruct kv as [k v]. simpl in Hnil.
  destruct acc as [[n pattern] h0]. unfold match_step.
  assert (∀ k' e', (k', e') ∈ (seen ++ [(k, v)]) →
            (k', e') ∈ seen ∨ (k' = k ∧ e' = v)) as Hsplit.
  { intros k' e' [?|[= -> ->]%list_elem_of_singleton]%elem_of_app; auto. }
  destruct (pathMatch_returns k path) as [[|] Hm]; rewrite Hm; simpl.
  - destruct Hacc as [[[= -> -> ->] Hnone]
                     |(k0 & e0 & [= -> -> ->] & Hh & Hin & Hm0 & Hmax)].
    + simpl. eexists; split; [done|]. right. exists k, v.
      split_and!; [done|done|set_solver|done|].
      intros k' e' [Hin'|[-> ->]]%Hsplit Hm'; [by apply Hnone in Hin'|lia].
    + rewrite bool_decide_eq_false_2 by done. simpl.
      destruct (Z.ltb_spec (len k0) (len k)).
      * eexists; split; [done|]. right. exists k, v.
        split_and!; [done|done|set_solver|done|].
        intros k' e' [Hin'|[-> ->]]%Hsplit Hm'; [|lia].
        specialize (Hmax k' e' Hin' Hm'). lia.
      * eexists; split; [done|]. right. exists k0, e0.
        split_and!; [done|done|set_solver|done|].
        intros k' e' [Hin'|[-> ->]]%Hsplit Hm'; [by apply Hmax in Hin'|lia].
  - eexists; split; [done|].
    destruct Hacc as [[-> Hnone]|(k0 & e0 & -> & Hh & Hin & Hm0 & Hmax)].
    + left. split; [done|].
      intros k' e' [Hin'|[-> ->]]%Hsplit; [by apply Hnone in Hin'|congruence].
    + right. exists k0, e0. split_and!; [done|done|set_solver|done|].
      intros k' e' [Hin'|[-> ->]]%Hsplit Hm';
        [by apply Hmax in Hin'|congruence].
Qed.

Lemma match_range_best (path : string) (order : list (string * muxEntry)) :
  ∀ seen acc,
    Forall (λ kv, h kv.2 ≠ None) order → best_so_far path seen acc →
    ∃ acc', match_range path order acc = Ok acc'
            ∧ best_so_far path (seen ++ order) acc'.
Proof.
  induction order as [|kv order IH]; intros seen acc Hnil Hacc; simpl.
  - exists acc. by rewrite app_nil_r.
  - apply Forall_cons in Hnil as [Hkv Hnil].
    destruct (match_step_best path seen acc kv Hkv Hacc) as (acc1 & -> & Hacc1).
    simpl. destruct (IH (seen ++ [kv]) acc1 Hnil Hacc1) as (acc' & Hrun & Hacc').
    exists acc'. split; [done|]. by rewrite <- app_assoc in Hacc'.
Qed.

(** What [match] returns on a registry without nil handlers, whatever the
    order of the scan: not-found when no registered pattern matches, else a
    registered matching pattern of greatest length and its handler. *)
Lemma ServeMux_match_spec (mux : ServeMux) (order : list (string * muxEntry))
    (path : string) :
  no_nil_handlers mux → ranges_over mux order →
  (ServeMux_match order path = Ok ("", None)
   ∧ ∀ k e, m mux !! k = Some e → pathMatch k path ≠ Ok true)
  ∨ (∃ k e, ServeMux_match order path = Ok (k, h e) ∧ h e ≠ None
            ∧ m mux !! k = Some e ∧ pathMatch k path = Ok true
            ∧ ∀ k' e', m mux !! k' = Some e' → pathMatch k' path = Ok true →
                       len k' ≤ len k).
Proof.
  intros Hnil Horder.
  destruct (match_range_best path order [] (0, "", None)) as (acc & Hrun & Hacc).
  { apply Forall_forall. intros [k e] Hin. simpl.
    apply (Hnil k e). by apply (ranges_over_elem mux order). }
  { left. split; [done|]. intros k' e' Hin. by apply elem_of_nil in Hin. }
  unfold ServeMux_match. rewrite Hrun. simpl in Hacc.
  destruct Hacc as [[-> Hnone]|(k & e & -> & Hh & Hin & Hm & Hmax)]; simpl.
  - left. split; [done|]. intros k e Hk. apply (Hnone k e).
    by apply (ranges_over_elem mux order).
  - right. exists k, e. split_and!; [done|done| |done|].
    + by apply (ranges_over_elem mux order).
    + intros k' e' Hk'. apply (Hmax k' e').
      by apply (ranges_over_elem mux order).
Qed.

Lemma ServeMux_match_returns (mux : ServeMux)
    (order : list (string * muxEntry)) (path : string) :
  no_nil_handlers mux → ranges_over mux order →
  returns (ServeMux_match order path).
Proof.
  intros Hnil Horder.
  destruct (ServeMux_match_spec mux order path Hnil Horder)
    as [[-> _]|(k & e & -> & _)]; done.
Qed.

Lemma ServeMux_match_none (mux : ServeMux) (order : list (string * muxEntry))
    (path : string) :
  no_nil_handlers mux → ranges_over mux order →
  (∀ k e, m mux !! k = Some e → pathMatch k path ≠ Ok true) →
  ServeMux_match order path = Ok ("", None).
Proof.
  intros Hnil Horder Hnone.
  destruct (ServeMux_match_spec mux order path Hnil Horder)
    as [[-> _]|(k & e & _ & _ & Hk & Hm & _)]; [done|].
  by apply Hnone in Hk.
Qed.

(** A registered matching pattern that is strictly longer than every other
    registered matching pattern is the one [match] returns. *)
Lemma ServeMux_match_longest (mux : ServeMux)
    (order : list (string * muxEntry)) (path k : string) (e : muxEntry) :
  no_nil_handlers mux → ranges_over mux order →
  m mux !! k = Some e → pathMatch k path = Ok true →
  (∀ k' e', m mux !! k' = Some e' → k' ≠ k → pathMatch k' path = Ok true →
            len k' < len k) →
  ServeMux_match order path = Ok (k, h e).
Proof.
  intros Hnil Horder Hk Hm Hothers.
  destruct (ServeMux_match_spec mux order path Hnil Horder)
    as [[_ Hnone]|(k0 & e0 & -> & _ & Hk0 & Hm0 & Hmax)].
  { by apply Hnone in Hk. }
  destruct (decide (k0 = k)) as [->|Hne]; [congruence|].
  specialize (Hothers k0 e0 Hk0 Hne Hm0). specialize (Hmax k e Hk Hm). lia.
Qed.

Lemma images_mux_entries (hd1 hd2 : Handler) :
  m (images_mux hd1 hd2) =
    <["/images/thumbnails" := implicit_redirect "/images/thumbnails/"]>
      (<["/images/thumbnails/" := {| explicit := true; h := Some hd2 |}]>
         (<["/images" := implicit_redirect "/images/"]>
            (<["/images/" := {| explicit := true; h := Some hd1 |}]> ∅))).
Proof. reflexivity. Qed.

Lemma images_mux_reachable (hd1 hd2 : Handler) : reachable (images_mux hd1 hd2).
Proof. unfold images_mux. do 2 apply reachable_Handle. apply reachable_new. Qed.

(** C6: on a registry built by the package, if [match] returns a pattern
    with a non-nil handler, then that pattern is registered with this
    handler, it matches the path, and no registered pattern that matches the
    path is longer, whatever the order of the scan. With ["/images/"] and
    ["/images/thumbnails/"] registered, ["/images/thumbnails/x"] resolves to
    ["/images/thumbnails/"]. *)
Theorem longest_match_wins :
  (∀ (mux : ServeMux) (order : list (string * muxEntry)) (path k : string)
     (hd : Handler),
     reachable mux → ranges_over mux order →
     ServeMux_match order path = Ok (k, Some hd) →
     pathMatch k path = Ok true
     ∧ (∃ e, m mux !! k = Some e ∧ h e = Some hd)
     ∧ ∀ k' e', m mux !! k' = Some e' → pathMatch k' path = Ok true →
                len k' ≤ len k)
  ∧ (∀ (hd1 hd2 : Handler) (order : list (string * muxEntry)),
       ranges_over (images_mux hd1 hd2) order →
       ServeMux_match order "/images/thumbnails/x"
       = Ok ("/images/thumbnails/", Some hd2)).
Proof.
  split.
  - intros mux order path k hd Hmux%reachable_no_nil Horder Hres.
    destruct (ServeMux_match_spec mux order path Hmux Horder)
      as [[Hnone _]|(k0 & e0 & Hsome & _ & Hk0 & Hm0 & Hmax)]; [congruence|].
    rewrite Hsome in Hres. injection Hres as -> Hhd. eauto.
  - intros hd1 hd2 order Horder.
    apply (ServeMux_match_longest (images_mux hd1 hd2) order
             "/images/thumbnails/x" "/images/thumbnails/"
             {| explicit := true; h := Some hd2 |});
      [apply reachable_no_nil, images_mux_reachable|done|done|done|].
    intros k' e'. rewrite images_mux_entries, !lookup_insert_Some.
    rewrite lookup_empty.
    intros [[<- _]|[_ [[<- _]|[_ [[<- _]|[_ [[<- _]|[_ ?]]]]]]]] Hne Hm;
      done.
Qed.

Lemma longest_match_wins_witness :
  pathMatch "/images/thumbnails/" "/images/thumbnails/x" = Ok true
  ∧ len "/images/" ≤ len "/images/thumbnails/".
Proof.
  destruct longest_match_wins as [Hgen _].
  destruct (Hgen (images_mux (HandlerFunc 1) (HandlerFunc 2))
              (map_to_list (m (images_mux (HandlerFunc 1) (HandlerFunc 2))))
              "/images/thumbnails/x" "/images/thumbnails/" (HandlerFunc 2))
    as (Hm & _ & Hmax).
  - apply images_mux_reachable.
  - unfold ranges_over. reflexivity.
  - vm_compute. reflexivity.
  - split; [exact Hm|].
    apply (Hmax "/images/" {| explicit := true; h := Some (HandlerFunc 1) |});
      vm_compute; reflexivity.
Defined.

(** ** Every non-empty pattern matches itself as a path *)

Lemma strings_HasPrefix_take (s : string) (n : nat) :
  strings_HasPrefix s (string_take n s) = true.
Proof.
  apply strings_HasPrefix_spec. exists (string_drop n s).
  by rewrite string_take_drop.
Qed.

Lemma item_at_middle (pre post : list string) (x : string) :
  item_at (pre ++ x :: post) (Z.of_nat (length pre)) = Ok x.
Proof. apply item_at_lookup. by rewrite list_lookup_middle. Qed.

Lemma matchItems_self (items : list string) :
  ∀ pre post,
    matchItems (pre ++ items ++ post) (Z.of_nat (length pre)) items = Ok true.
Proof.
  induction items as [|item rest IH]; intros pre post; simpl; [done|].
  assert (matchItems (pre ++ item :: rest ++ post)
            (Z.of_nat (length pre) + 1) rest = Ok true) as Hrest.
  { specialize (IH (pre ++ [item]) post).
    rewrite <- app_assoc, length_app in IH. simpl in IH.
    by replace (Z.of_nat (length pre) + 1)
      with (Z.of_nat (length pre + 1)) by lia. }
  rewrite item_at_middle.
  destruct (Z.eqb_spec (strings_Index item ":") (-1)); simpl.
  { by rewrite String.eqb_refl. }
  destruct (Z.eqb_spec (strings_Index item ":") 0); [done|].
  destruct (strings_Index_range item ":") as [?|Hr]; [lia|].
  rewrite slice_0_spec by lia. simpl.
  by rewrite strings_HasPrefix_take.
Qed.

Lemma pathMatch_self (k : string) : k ≠ "" → pathMatch k k = Ok true.
Proof.
  intros Hne. destruct (strings_Contains k ":") eqn:Htpl.
  - rewrite pathMatch_templated by done.
    destruct (ends_in_slashb k) eqn:Hk.
    + apply ends_in_slashb_spec in Hk.
      rewrite pathMatchSplat_prefix_form by done. simpl.
      pose proof (strings_Split_length k "/").
      destruct (Z.leb_spec (Z.of_nat (length (strings_Split k "/")))
                  (strings_Count k "/" - 1)); [lia|].
      rewrite <- (take_drop (Z.to_nat (strings_Count k "/" - 1))
                    (strings_Split k "/")) at 1.
      apply (matchItems_self _ []).
    + rewrite pathMatchSplat_exact_form
        by (by rewrite <- ?ends_in_slashb_spec, ?Hk).
      rewrite Z.eqb_refl. simpl.
      rewrite <- (app_nil_r (strings_Split k "/")) at 1.
      apply (matchItems_self _ []).
  - rewrite pathMatch_flat by done.
    destruct (byte_at_returns k (len k - 1)) as [c Hc].
    { pose proof (len_pos k Hne). lia. }
    destruct (decide (c = "/"%char)) as [->|Hc'].
    + apply byte_at_last_inv in Hc as [q ->].
      rewrite pathMatchFlat_slash. f_equal.
      rewrite <- (string_take_all (q +:+ "/")) at 2.
      apply strings_HasPrefix_take.
    + unfold pathMatchFlat. rewrite Hc. simpl.
      destruct (Ascii.eqb_spec c "/"); [done|]. simpl.
      by rewrite String.eqb_refl.
Qed.

(** ** The implicit redirect *)

Ltac registry_entry H :=
  repeat match type of H with
         | <[_:=_]> _ !! _ = Some _ =>
             apply lookup_insert_Some in H as [[<- <-]|[_ H]]
         | ∅ !! _ = Some _ => by rewrite lookup_empty in H
         end.




Lemma tree_mux1_entries :
  m tree_mux1 =
    <["/tree" := implicit_redirect "/tree/"]>
      (<["/tree/" := {| explicit := true; h := Some (HandlerFunc 1) |}]> ∅).
Proof. reflexivity. Qed.

Lemma tree_mux2_entries :
  m tree_mux2 =
    <["/tree" := {| explicit := true; h := Some (HandlerFunc 2) |}]>
      (<["/tree" := implicit_redirect "/tree/"]>
         (<["/tree/" := {| explicit := true; h := Some (HandlerFunc 1) |}]>
            ∅)).
Proof. reflexivity. Qed.


(** The scenario end to end: a GET of ["/tree"] on host ["example.com"] is
    handed to the redirect to ["/tree/"] while only ["/tree/"] is
    registered, and to the new handler once ["/tree"] is. *)
Lemma tree_request_served (Values_Encode : gmap string (list string) → string)
    (mux : ServeMux) (hd : Handler) (order1 order2 : list (string * muxEntry))
    (w : ResponseWriter) :
  let r := {| Method := "GET"; Host := "example.com"; URL_Path := "/tree";
              URL_RawQuery := "" |} in
  (mux = tree_mux1 ∧ hd = RedirectHandler "/tree/" 301)
  ∨ (mux = tree_mux2 ∧ hd = HandlerFunc 2) →
  ranges_over mux order1 → ranges_over mux order2 →
  ServeHTTP go_path_Clean Values_Encode order1 order2 w r
  = Ok {| response := w; invoked := Some (hd, r) |}.
Proof.
  intros r Hmux Horder1 Horder2.
  assert (no_nil_handlers mux) as Hnil.
  { apply reachable_no_nil.
    destruct Hmux as [[-> _]|[-> _]];
      repeat apply reachable_Handle; apply reachable_new. }
  assert (∃ e, m mux !! "/tree" = Some e ∧ h e = Some hd
               ∧ ∀ k' e', m mux !! k' = Some e' → k' ≠ "/tree" →
                   pathMatch k' "/tree" = Ok false
                   ∧ pathMatch k' "example.com/tree" = Ok false)
    as (e & He & Hhd & Hothers).
  { destruct Hmux as [[-> ->]|[-> ->]]; (eexists; split_and!; [done|done|]);
      intros k' e' Hk' Hne.
    - rewrite tree_mux1_entries in Hk'. registry_entry Hk'; done.
    - rewrite tree_mux2_entries in Hk'. registry_entry Hk'; done. }
  unfold ServeHTTP, handler. simpl.
  rewrite (ServeMux_match_none mux order1); [|done..|].
  - simpl.
    rewrite (ServeMux_match_longest mux order2 "/tree" "/tree" e);
      [|done..|].
    + rewrite Hhd. done.
    + intros k' e' Hk' Hne Hm. destruct (Hothers k' e' Hk' Hne). congruence.
  - intros k e' Hk. destruct (decide (k = "/tree")) as [->|Hne]; [done|].
    destruct (Hothers k e' Hk Hne). congruence.
Qed.

(** ** Canonical paths and the dispatch entry point *)

Section Canonical.
Variable path_Clean : string → string.
Variable Values_Encode : gmap string (list string) → string.

Lemma cleanPath_returns (p : string) : returns (cleanPath path_Clean p).
Proof.
  unfold cleanPath. destruct (String.eqb_spec p "") as [|Hne]; [done|].
  destruct (byte_at_returns p 0) as [c ->].
  { pose proof (len_pos p Hne). lia. }
  simpl. set (p' := if negb (Ascii.eqb c "/") then _ else _).
  destruct (byte_at_returns p' (len p' - 1)) as [d ->].
  { assert (p' ≠ "") as Hne' by (unfold p'; by destruct (negb _)).
    pose proof (len_pos p' Hne'). lia. }
  simpl. by destruct (_ && _).
Qed.

(** X16: the canonical form as far as cleanPath itself decides it: the empty
    path becomes ["/"], a missing leading slash is put in front before
    [path.Clean] is applied, and a trailing slash is kept. *)
Lemma cleanPath_shape (p : string) :
  cleanPath path_Clean "" = Ok "/"
  ∧ (∀ c p', p = String c p' → c ≠ "/"%char →
       cleanPath path_Clean p = cleanPath path_Clean ("/" +:+ p))
  ∧ (ends_in_slash p → ∃ np, cleanPath path_Clean p = Ok np ∧ ends_in_slash np).
Proof.
  split_and!; [done| |].
  - intros c p' -> Hc. unfold cleanPath. simpl.
    destruct (Ascii.eqb_spec c "/"); [done|]. done.
  - intros Hp. pose proof (ends_in_slash_nonempty p Hp) as Hne.
    unfold cleanPath. destruct (String.eqb_spec p ""); [done|].
    destruct (byte_at_returns p 0) as [c ->].
    { pose proof (len_pos p Hne). lia. }
    simpl. set (p' := if negb (Ascii.eqb c "/") then _ else _).
    assert (ends_in_slash p') as Hp'.
    { unfold p'. destruct (negb _); [|done]. destruct Hp as [q ->].
      by exists ("/" +:+ q). }
    apply ends_in_slash_last in Hp' as ->. simpl.
    destruct (String.eqb_spec (path_Clean p') "/") as [->|_]; simpl.
    + eexists; split; [done|]. by exists "".
    + eexists; split; [done|]. by eexists.
Qed.

End Canonical.


(** ** A prefix-form template leaves its last segment unchecked *)

Lemma user_mux_entries :
  m user_mux =
    <["/x/user-:id" := implicit_redirect "/x/user-:id/"]>
      (<["/x/user-:id/" := {| explicit := true; h := Some (HandlerFunc 1) |}]>
         ∅).
Proof. reflexivity. Qed.

(** C2, at the failing input: the pattern ["/x/user-:id/"] splits into
    ["", "x", "user-:id", ""], the loop of pathMatchSplat runs over the
    first two of these four segments only, and the path ["/x/abc/y"] is
    matched although ["abc"] does not start with ["user-"]; likewise the
    literal segment ["b"] of ["/:a/b/"] is not compared with ["c"]. *)
Theorem prefix_template_skips_last_segment :
  strings_Split "/x/user-:id/" "/" = [""; "x"; "user-:id"; ""]
  ∧ take (Z.to_nat (strings_Count "/x/user-:id/" "/" - 1))
      (strings_Split "/x/user-:id/" "/") = [""; "x"]
  ∧ strings_HasPrefix "abc" "user-" = false
  ∧ pathMatch "/x/user-:id/" "/x/abc/y" = Ok true
  ∧ pathMatch "/:a/b/" "/x/c/" = Ok true.
Proof. split_and!; reflexivity. Qed.

(** C3, at the failing input: the path ["/x/abc/y"] matches the pattern
    ["/x/user-:id/"], parseSplats then slices the segment ["abc"] from
    index 5 and panics, and so do handler and ServeHTTP on a registry that
    holds the pattern, whatever the order of the scans. *)
Theorem matched_request_faults :
  pathMatch "/x/user-:id/" "/x/abc/y" = Ok true
  ∧ parseSplats "/x/user-:id/" "/x/abc/y" = Panic "slice bounds out of range"
  ∧ ∀ Values_Encode order1 order2 w,
      ranges_over user_mux order1 → ranges_over user_mux order2 →
      handler Values_Encode order1 order2 user_request
      = Panic "slice bounds out of range"
      ∧ ServeHTTP go_path_Clean Values_Encode order1 order2 w user_request
        = Panic "slice bounds out of range".
Proof.
  split_and!; [done..|].
  intros Values_Encode order1 order2 w Horder1 Horder2.
  assert (no_nil_handlers user_mux) as Hnil
    by apply reachable_no_nil, reachable_Handle, reachable_new.
  assert (handler Values_Encode order1 order2 user_request
          = Panic "slice bounds out of range") as Hfault.
  { unfold handler.
    rewrite (ServeMux_match_none user_mux order1); [|done..|].
    - simpl.
      rewrite (ServeMux_match_longest user_mux order2 "/x/abc/y"
                 "/x/user-:id/"
                 {| explicit := true; h := Some (HandlerFunc 1) |});
        [done..|].
      intros k' e' Hk' Hne Hm. rewrite user_mux_entries in Hk'.
      registry_entry Hk'; done.
    - intros k e Hk. rewrite user_mux_entries in Hk.
      registry_entry Hk; done. }
  split; [done|]. unfold ServeHTTP. simpl. by rewrite Hfault.
Qed.

(** C5, at the failing input: on the matching pair ["/x/user-:id/"] and
    ["/x/abc/y"] the segment ["user-:id"] has its marker at index 5, the
    path segment ["abc"] has length 3, and parseSplats panics instead of
    binding [":id"]. *)
Theorem parseSplats_faults_on_match :
  pathMatch "/x/user-:id/" "/x/abc/y" = Ok true
  ∧ strings_Contains "/x/user-:id/" ":" = true
  ∧ strings_Index "user-:id" ":" = 5
  ∧ slice_from "abc" 5 = Panic "slice bounds out of range"
  ∧ parseSplats "/x/user-:id/" "/x/abc/y" = Panic "slice bounds out of range".
Proof. split_and!; reflexivity. Qed.

(** ** What parseSplats binds when it returns *)

Lemma Values_Add_bound (key value : string) (v : gmap string (list string)) :
  bound (Values_Add key value v) key value.
Proof. unfold bound, Values_Add. rewrite lookup_insert_eq. set_solver. Qed.

Lemma Values_Add_keeps (key value : string) (v : gmap string (list string))
    (name x : string) :
  bound v name x → bound (Values_Add key value v) name x.
Proof.
  unfold bound, Values_Add. intros Hx.
  destruct (decide (key = name)) as [->|Hne].
  - rewrite lookup_insert_eq. set_solver.
  - by rewrite lookup_insert_ne.
Qed.

Lemma addSplats_keeps (_path items : list string) :
  ∀ i values values' name x,
    addSplats _path i items values = Ok values' →
    bound values name x → bound values' name x.
Proof.
  induction items as [|item rest IH]; intros i values values' name x; simpl.
  { by intros [= ->]. }
  destruct (Z.eqb_spec (strings_Index item ":") (-1)); [by apply IH|].
  destruct (Z.eqb_spec (strings_Index item ":") 0).
  - destruct (item_at _path i) as [seg|]; [|done]. simpl.
    intros Hrun Hx. eapply IH; [done|]. by apply Values_Add_keeps.
  - destruct (slice_from item _) as [name'|]; [|done]. simpl.
    destruct (item_at _path i) as [seg|]; [|done]. simpl.
    destruct (slice_from seg _) as [value|]; [|done]. simpl.
    intros Hrun Hx. eapply IH; [done|]. by apply Values_Add_keeps.
Qed.

Lemma slice_from_Ok (s t : string) (i : Z) :
  slice_from s i = Ok t → 0 ≤ i ≤ len s ∧ t = string_drop (Z.to_nat i) s.
Proof.
  intros Hs. destruct (decide (0 ≤ i ≤ len s)) as [Hi|Hi].
  - rewrite slice_from_spec in Hs by done. by injection Hs as <-.
  - unfold slice_from, slice in Hs.
    destruct (Z.leb_spec 0 i), (Z.leb_spec i (len s)); simpl in Hs;
      try done; lia.
Qed.

(** The bindings made by the loop of parseSplats: the pattern segment at
    offset [j] with its marker at index [k] binds its text from [k] on to
    the text from [k] on of the path segment at the same position. *)
Lemma addSplats_binds (_path items : list string) :
  ∀ i values values' j item,
    0 ≤ i → addSplats _path i items values = Ok values' →
    items !! j = Some item → 0 ≤ strings_Index item ":" →
    let k := Z.to_nat (strings_Index item ":") in
    ∃ seg, _path !! (Z.to_nat i + j)%nat = Some seg
           ∧ strings_Index item ":" ≤ len seg
           ∧ bound values' (string_drop k item) (string_drop k seg).
Proof.
  induction items as [|item' rest IH];
    intros i values values' j item Hi Hrun Hj Hk; [done|].
  simpl in Hrun. destruct j as [|j]; simpl in Hj.
  - injection Hj as ->. rewrite Nat.add_0_r.
    destruct (Z.eqb_spec (strings_Index item ":") (-1)); [lia|].
    destruct (Z.eqb_spec (strings_Index item ":") 0) as [H0|H0].
    + destruct (item_at _path i) as [seg|] eqn:Hseg; [|done].
      simpl in Hrun. apply item_at_Ok in Hseg as [_ Hseg].
      exists seg. rewrite H0. pose proof (len_nonneg seg).
      split_and!; [done|done|]. simpl.
      eapply addSplats_keeps; [done|]. apply Values_Add_bound.
    + destruct (slice_from item _) as [name|] eqn:Hname; [|done].
      simpl in Hrun.
      destruct (item_at _path i) as [seg|] eqn:Hseg; [|done].
      simpl in Hrun.
      destruct (slice_from seg _) as [value|] eqn:Hvalue; [|done].
      simpl in Hrun. apply item_at_Ok in Hseg as [_ Hseg].
      apply slice_from_Ok in Hname as [_ ->].
      apply slice_from_Ok in Hvalue as [Hlen ->].
      exists seg. split_and!; [done|lia|].
      eapply addSplats_keeps; [done|]. apply Values_Add_bound.
  - assert (∀ v, addSplats _path (i + 1) rest v = Ok values' →
              ∃ seg, _path !! (Z.to_nat i + S j)%nat = Some seg
                     ∧ strings_Index item ":" ≤ len seg
                     ∧ bound values'
                         (string_drop (Z.to_nat (strings_Index item ":")) item)
                         (string_drop (Z.to_nat (strings_Index item ":")) seg))
      as Hrest.
    { intros v Hv.
      destruct (IH (i + 1) v values' j item) as (seg & Hseg & Hb);
        [lia|done..|].
      exists seg. split; [|done].
      by replace (Z.to_nat i + S j)%nat with (Z.to_nat (i + 1) + j)%nat
        by lia. }
    destruct (Z.eqb_spec (strings_Index item' ":") (-1)); [by eapply Hrest|].
    destruct (Z.eqb_spec (strings_Index item' ":") 0).
    + destruct (item_at _path i) as [seg'|]; [|done]. by eapply Hrest.
    + destruct (slice_from item' _) as [name|]; [|done]. simpl in Hrun.
      destruct (item_at _path i) as [seg'|]; [|done]. simpl in Hrun.
      destruct (slice_from seg' _) as [value|]; [|done]. by eapply Hrest.
Qed.

(** X7: parseSplats returns nil for a pattern without capture marker; when
    it returns a map, every pattern segment with a marker at index [k] binds
    its text from the marker on to the path segment's text from [k] on (the
    whole segment and the whole path segment when [k] is 0). *)
Lemma parseSplats_binds (p s : string) :
  (strings_Contains p ":" = false → parseSplats p s = Ok None)
  ∧ ∀ values j item,
      parseSplats p s = Ok (Some values) →
      strings_Split p "/" !! j = Some item → 0 ≤ strings_Index item ":" →
      let k := Z.to_nat (strings_Index item ":") in
      ∃ seg, strings_Split s "/" !! j = Some seg
             ∧ strings_Index item ":" ≤ len seg
             ∧ bound values (string_drop k item) (string_drop k seg).
Proof.
  unfold parseSplats. split; [by intros ->|].
  intros values j item. destruct (strings_Contains p ":"); [|done]. simpl.
  destruct (addSplats _ 0 _ ∅) as [values'|] eqn:Hrun; [|done]. simpl.
  intros [= ->] Hj Hk.
  by apply (addSplats_binds (strings_Split s "/") (strings_Split p "/")
              0 ∅ values j item).
Qed.

(** For a template without trailing slash every segment has been checked
    by the matcher, and parseSplats returns on every matching path. *)
Lemma matchItems_addSplats (_path items : list string) :
  ∀ i values,
    0 ≤ i → i + Z.of_nat (length items) ≤ Z.of_nat (length _path) →
    matchItems _path i items = Ok true →
    returns (addSplats _path i items values).
Proof.
  induction items as [|item rest IH]; intros i values Hi Hlen; simpl; [done|].
  simpl in Hlen.
  destruct (item_at_returns _path i) as [seg Hseg]; [lia|]. rewrite Hseg.
  simpl.
  destruct (Z.eqb_spec (strings_Index item ":") (-1)).
  { destruct (negb _); [done|]. apply IH; lia. }
  destruct (Z.eqb_spec (strings_Index item ":") 0); [apply IH; lia|].
  destruct (strings_Index_range item ":") as [?|Hr]; [lia|].
  rewrite slice_0_spec, (slice_from_spec item) by lia. simpl.
  destruct (strings_HasPrefix seg _) eqn:Hpre; simpl; [|done].
  apply andb_true_iff in Hpre as [Hpre%Z.leb_le _].
  unfold len in Hpre at 1. rewrite string_take_len in Hpre
    by (unfold len in Hr; lia).
  rewrite (slice_from_spec seg) by lia. simpl. apply IH; lia.
Qed.

Lemma parseSplats_exact_returns (p s : string) :
  strings_Contains p ":" = true → ¬ ends_in_slash p →
  pathMatch p s = Ok true → ∃ values, parseSplats p s = Ok (Some values).
Proof.
  intros Htpl Hp. rewrite pathMatch_templated by done.
  assert (p ≠ "") as Hne by (by intros ->).
  rewrite pathMatchSplat_exact_form by done. unfold parseSplats.
  rewrite Htpl. simpl.
  destruct (Z.eqb_spec (strings_Count s "/") (strings_Count p "/"));
    simpl; [|done].
  intros Hm. pose proof (strings_Split_length p "/").
  pose proof (strings_Split_length s "/").
  destruct (matchItems_addSplats (strings_Split s "/") (strings_Split p "/")
              0 ∅) as [values ->]; [lia|lia|done|].
  by exists values.
Qed.

(** ** Which segments a prefix-form template checks *)

Lemma strings_Split_nonempty (s : string) (c : ascii) :
  strings_Split s c ≠ [].
Proof.
  intros Hs. pose proof (strings_Split_length s c) as Hl.
  pose proof (strings_Count_nonneg s c). rewrite Hs in Hl. simpl in Hl. lia.
Qed.

Lemma strings_Split_app (a b : string) (c : ascii) :
  strings_Split (a +:+ String c b) c = strings_Split a c ++ strings_Split b c.
Proof.
  induction a as [|d a IH]; simpl.
  - by rewrite Ascii.eqb_refl.
  - destruct (Ascii.eqb d c); [by rewrite IH|]. rewrite IH.
    pose proof (strings_Split_nonempty a c).
    by destruct (strings_Split a c).
Qed.

Lemma strings_Split_no_sep (s : string) (c : ascii) :
  strings_Count s c = 0 → strings_Split s c = [s].
Proof.
  induction s as [|d s IH]; simpl; [done|].
  pose proof (strings_Count_nonneg s c).
  destruct (Ascii.eqb d c); [lia|]. intros Hs. by rewrite IH.
Qed.

(** A pattern [q/seg/] is matched by looking at the segments of [q] only:
    the segment [seg] before the trailing slash is dropped together with
    the empty one after it. *)
Lemma prefix_template_checks (q seg path : string) :
  strings_Count seg "/" = 0 →
  pathMatchSplat (q +:+ "/" +:+ seg +:+ "/") path =
    if Z.of_nat (length (strings_Split path "/")) <=? strings_Count q "/" + 1
    then Ok false
    else matchItems (strings_Split path "/") 0 (strings_Split q "/").
Proof.
  intros Hseg. rewrite pathMatchSplat_prefix_form.
  2:{ exists (q +:+ "/" +:+ seg). by rewrite !string_app_assoc. }
  change ("/" +:+ seg +:+ "/") with (String "/" (seg +:+ "/")).
  rewrite strings_Count_app, strings_Split_app. simpl.
  rewrite strings_Count_app, Hseg, strings_Split_app.
  rewrite (strings_Split_no_sep seg) by done. simpl.
  replace (strings_Count q "/" + (1 + (0 + (1 + 0))) - 1)
    with (strings_Count q "/" + 1) by lia.
  pose proof (strings_Split_length q "/") as Hq.
  replace (Z.to_nat (strings_Count q "/" + 1))
    with (length (strings_Split q "/")) by lia.
  by rewrite take_app_length.
Qed.

Lemma prefix_template_ignores_last (q seg seg' path : string) :
  strings_Count seg "/" = 0 → strings_Count seg' "/" = 0 →
  pathMatchSplat (q +:+ "/" +:+ seg +:+ "/") path
  = pathMatchSplat (q +:+ "/" +:+ seg' +:+ "/") path.
Proof. intros Hseg Hseg'. by rewrite !prefix_template_checks. Qed.

(** ** The model of path.Clean *)

Lemma cleanPath_go_rooted (p : string) :
  ∃ np, cleanPath go_path_Clean p = Ok (String "/" np).
Proof.
  unfold cleanPath. destruct p as [|c p]; [by eexists|]. simpl.
  destruct (Ascii.eqb_spec c "/") as [->|Hc]; simpl.
  - destruct (byte_at_returns (String "/" p) (len (String "/" p) - 1))
      as [d ->].
    { rewrite len_String. pose proof (len_nonneg p). lia. }
    simpl. destruct (_ && _); by eexists.
  - destruct (byte_at_returns (String "/" (String c p))
                (len (String "/" (String c p)) - 1)) as [d ->].
    { rewrite !len_String. pose proof (len_nonneg p). lia. }
    simpl. destruct (_ && _); by eexists.
Qed.

Lemma cleanPath_go_examples :
  cleanPath go_path_Clean "" = Ok "/"
  ∧ cleanPath go_path_Clean "/" = Ok "/"
  ∧ cleanPath go_path_Clean "a/b" = Ok "/a/b"
  ∧ cleanPath go_path_Clean "/a/./b/../c/" = Ok "/a/c/"
  ∧ cleanPath go_path_Clean "/../a//b/" = Ok "/a/b/"
  ∧ cleanPath go_path_Clean "/a/.." = Ok "/"
  ∧ cleanPath go_path_Clean "/hello/world" = Ok "/hello/world".
Proof. split_and!; reflexivity. Qed.

(** * Further properties of the package *)

(** ** The matcher *)

(** X1: pathMatch never panics: on every pattern and path it returns true
    or false, and the empty pattern matches no path. *)
Theorem pathMatch_never_panics (pattern path : string) :
  (pathMatch pattern path = Ok true ∨ pathMatch pattern path = Ok false)
  ∧ pathMatch "" path = Ok false.
Proof.
  split; [|done].
  destruct (pathMatch_returns pattern path) as [[|] ->]; auto.
Qed.

(** X2: a pattern without capture marker and without trailing slash matches
    exactly one path, the pattern itself. *)
Theorem flat_exact_match (p path : string) :
  p ≠ "" → strings_Contains p ":" = false → ¬ ends_in_slash p →
  (pathMatch p path = Ok true ↔ path = p)
  ∧ (pathMatch p path = Ok false ↔ path ≠ p).
Proof.
  intros Hne Hflat Hp. rewrite pathMatch_flat by done. unfold pathMatchFlat.
  destruct (byte_at_returns p (len p - 1)) as [c Hc].
  { pose proof (len_pos p Hne). lia. }
  rewrite Hc. simpl. destruct (Ascii.eqb_spec c "/") as [->|_].
  { by apply ends_in_slash_last in Hc. }
  simpl. destruct (String.eqb_spec p path) as [->|Hpp]; split; split;
    congruence.
Qed.

Lemma flat_exact_match_witness :
  pathMatch "/favicon.ico" "/favicon.ico" = Ok true
  ∧ pathMatch "/favicon.ico" "/favicon.ico/" = Ok false.
Proof.
  assert (¬ ends_in_slash "/favicon.ico") as Hp
    by (by intros ?%ends_in_slashb_spec).
  destruct (flat_exact_match "/favicon.ico" "/favicon.ico")
    as [[_ Hyes] _]; [done..|].
  destruct (flat_exact_match "/favicon.ico" "/favicon.ico/")
    as [_ [_ Hno]]; [done..|].
  split; [by apply Hyes|by apply Hno].
Defined.

(** X3: a pattern matches itself, taken as a path, exactly when it is not
    empty; this holds for flat and templated patterns alike. *)
Theorem pattern_matches_itself (k : string) :
  pathMatch k k = Ok true ↔ k ≠ "".
Proof.
  split.
  - by intros Hm ->.
  - apply pathMatch_self.
Qed.

Lemma segment_matches_prefixed (item seg : string) :
  strings_Index item ":" ≠ -1 → strings_Index item ":" ≠ 0 →
  segment_matches item seg
  ↔ strings_HasPrefix seg
      (string_take (Z.to_nat (strings_Index item ":")) item) = true.
Proof.
  intros Hm1 H0. unfold segment_matches.
  rewrite !decide_False by done. by rewrite strings_HasPrefix_spec.
Qed.

(** The loop of pathMatchSplat over [items], run against the path segments
    [segs] that sit at the same positions, returns true exactly when each
    pattern segment accepts its path segment. *)
Lemma matchItems_Forall2 (items : list string) :
  ∀ pre segs post,
    length segs = length items →
    matchItems (pre ++ segs ++ post) (Z.of_nat (length pre)) items = Ok true
    ↔ Forall2 segment_matches items segs.
Proof.
  induction items as [|item rest IH]; intros pre segs post Hlen.
  { destruct segs; [|done]. simpl. split; [constructor|done]. }
  destruct segs as [|seg segs]; [done|]. simpl in Hlen.
  rewrite Forall2_cons. simpl.
  assert (matchItems (pre ++ seg :: segs ++ post)
            (Z.of_nat (length pre) + 1) rest = Ok true
          ↔ Forall2 segment_matches rest segs) as Hrest.
  { rewrite <- (IH (pre ++ [seg]) segs post) by lia.
    rewrite <- app_assoc, length_app. simpl.
    by replace (Z.of_nat (length pre) + 1)
      with (Z.of_nat (length pre + 1)) by lia. }
  rewrite item_at_middle. simpl.
  destruct (Z.eqb_spec (strings_Index item ":") (-1)) as [Hm1|Hm1].
  { unfold segment_matches. rewrite decide_True by done.
    destruct (String.eqb_spec item seg); simpl; [tauto|].
    split; [done|tauto]. }
  destruct (Z.eqb_spec (strings_Index item ":") 0) as [H0|H0].
  { unfold segment_matches. rewrite decide_False, decide_True by done.
    tauto. }
  destruct (strings_Index_range item ":") as [?|Hr]; [lia|].
  rewrite slice_0_spec by lia. simpl.
  rewrite segment_matches_prefixed by done.
  destruct (strings_HasPrefix seg _); simpl; [tauto|].
  split; [done|]. by intros [? _].
Qed.

(** X4: a templated pattern without trailing slash matches a path exactly
    when both split at the slashes into equally many segments and every
    pattern segment accepts the path segment at its position. *)
Theorem exact_template_match (p s : string) :
  strings_Contains p ":" = true → ¬ ends_in_slash p →
  pathMatch p s = Ok true
  ↔ Forall2 segment_matches (strings_Split p "/") (strings_Split s "/").
Proof.
  intros Htpl Hp. rewrite pathMatch_templated by done.
  assert (p ≠ "") as Hne by (by intros ->).
  rewrite pathMatchSplat_exact_form by done.
  pose proof (strings_Split_length p "/") as Hlp.
  pose proof (strings_Split_length s "/") as Hls.
  destruct (Z.eqb_spec (strings_Count s "/") (strings_Count p "/")) as [Hc|Hc];
    simpl.
  - rewrite <- (matchItems_Forall2 _ [] (strings_Split s "/") []) by lia.
    by rewrite app_nil_r.
  - split; [done|]. intros Hall%Forall2_length. lia.
Qed.

Lemma exact_template_match_witness :
  pathMatch "/hello/:a" "/hello/world" = Ok true
  ∧ Forall2 segment_matches ["v1"; "user-:id"] ["v1"; "user-42"].
Proof.
  assert (∀ p, ends_in_slashb p = false → ¬ ends_in_slash p) as Hexact.
  { intros p Hp Hp'%ends_in_slashb_spec. congruence. }
  destruct (exact_template_match "/hello/:a" "/hello/world" eq_refl
              (Hexact "/hello/:a" eq_refl)) as [_ Hyes].
  destruct (exact_template_match "v1/user-:id" "v1/user-42" eq_refl
              (Hexact "v1/user-:id" eq_refl)) as [Hsegs _].
  split; [|by apply Hsegs].
  apply Hyes. by repeat constructor.
Defined.

(** X5: a templated pattern [q/seg/] matches a path exactly when the path
    has more segments than [q] and its leading segments are accepted by the
    segments of [q]; the segment [seg] before the trailing slash is not
    consulted. *)
Theorem prefix_template_match (q seg s : string) :
  strings_Count seg "/" = 0 →
  strings_Contains (q +:+ "/" +:+ seg +:+ "/") ":" = true →
  pathMatch (q +:+ "/" +:+ seg +:+ "/") s = Ok true
  ↔ ∃ segs rest, strings_Split s "/" = segs ++ rest ∧ rest ≠ []
                 ∧ Forall2 segment_matches (strings_Split q "/") segs.
Proof.
  intros Hseg Htpl. rewrite pathMatch_templated by done.
  rewrite prefix_template_checks by done.
  pose proof (strings_Split_length q "/") as Hq.
  set (_path := strings_Split s "/").
  set (n := length (strings_Split q "/")).
  destruct (Z.leb_spec (Z.of_nat (length _path)) (strings_Count q "/" + 1))
    as [Hshort|Hlong].
  - split; [done|]. intros (segs & rest & Hs & Hrest & Hall).
    apply Forall2_length in Hall. apply (f_equal length) in Hs.
    rewrite length_app in Hs. destruct rest; [done|]. simpl in Hs.
    fold n in Hall. lia.
  - rewrite <- (take_drop n _path) at 1.
    rewrite (matchItems_Forall2 _ [] (take n _path) (drop n _path))
      by (rewrite length_take; lia).
    split.
    + intros Hall. exists (take n _path), (drop n _path).
      split_and!; [by rewrite take_drop| |done].
      intros Hnil%(f_equal length). rewrite length_drop in Hnil.
      simpl in Hnil. lia.
    + intros (segs & rest & Hs & _ & Hall).
      assert (length segs = n) as Hn by (by apply Forall2_length in Hall).
      by rewrite Hs, <- Hn, take_app_length.
Qed.

Lemma prefix_template_match_witness :
  pathMatch "/hello/:a/" "/hello/world/whatever" = Ok true
  ∧ pathMatch "/hello/:a/" "/hello" = Ok false.
Proof.
  destruct (prefix_template_match "/hello" ":a" "/hello/world/whatever")
    as [_ Hyes]; [done..|].
  split; [|done]. apply Hyes. exists [""; "hello"], ["world"; "whatever"].
  split_and!; [done..|]. by repeat constructor.
Defined.

(** ** Captures *)

Lemma parseSplats_binds_witness :
  bound {[":id" := ["42"]]} ":id" "42".
Proof.
  destruct (parseSplats_binds "/x/user-:id" "/x/user-42") as [_ Hbinds].
  destruct (Hbinds {[":id" := ["42"]]} 2%nat "user-:id")
    as (seg & Hseg & _ & Hbound); [reflexivity|reflexivity|done|].
  injection Hseg as <-. exact Hbound.
Defined.

(** X6: on every path that a templated pattern without trailing slash
    matches, parseSplats returns a map, and in it every pattern segment with
    a marker binds its text from the marker on to the text of the path
    segment at the same position from the same index on. *)
Theorem captures_of_exact_match (p s : string) :
  strings_Contains p ":" = true → ¬ ends_in_slash p →
  pathMatch p s = Ok true →
  ∃ values,
    parseSplats p s = Ok (Some values)
    ∧ ∀ j item,
        strings_Split p "/" !! j = Some item → 0 ≤ strings_Index item ":" →
        let k := Z.to_nat (strings_Index item ":") in
        ∃ seg, strings_Split s "/" !! j = Some seg
               ∧ bound values (string_drop k item) (string_drop k seg).
Proof.
  intros Htpl Hp Hm.
  destruct (parseSplats_exact_returns p s Htpl Hp Hm) as [values Hvalues].
  exists values. split; [done|]. intros j item Hj Hk.
  unfold parseSplats in Hvalues. rewrite Htpl in Hvalues. simpl in Hvalues.
  destruct (addSplats _ 0 _ ∅) as [values'|] eqn:Hrun; [|done].
  injection Hvalues as ->.
  destruct (addSplats_binds (strings_Split s "/") (strings_Split p "/")
              0 ∅ values j item) as (seg & Hseg & _ & Hbound); [done..|].
  by exists seg.
Qed.

Lemma captures_of_exact_match_witness :
  ∃ values, parseSplats "/hello/:a" "/hello/world" = Ok (Some values)
            ∧ bound values ":a" "world".
Proof.
  assert (¬ ends_in_slash "/hello/:a") as Hp
    by (by intros ?%ends_in_slashb_spec).
  destruct (captures_of_exact_match "/hello/:a" "/hello/world" eq_refl Hp
              eq_refl) as (values & Hvalues & Hbinds).
  exists values. split; [exact Hvalues|].
  destruct (Hbinds 2%nat ":a") as (seg & Hseg & Hbound);
    [reflexivity|done|].
  injection Hseg as <-. exact Hbound.
Defined.

Lemma string_drop_app (p r : string) :
  string_drop (String.length p) (p +:+ r) = r.
Proof. induction p as [|c p IH]; simpl; [by destruct r|]. done. Qed.

Lemma string_drop_Index (item : string) (c : ascii) :
  0 ≤ strings_Index item c →
  ∃ rest, string_drop (Z.to_nat (strings_Index item c)) item = String c rest.
Proof.
  intros Hi.
  destruct (strings_Index_found item c Hi) as (a & b & Heq & Hlen & _).
  exists b. rewrite <- Hlen. unfold len. rewrite Nat2Z.id, Heq.
  apply string_drop_app.
Qed.

Lemma addSplats_keys (_path items : list string) :
  ∀ i values values',
    addSplats _path i items values = Ok values' →
    (∀ name vs, values !! name = Some vs →
                (∃ rest, name = String ":" rest) ∧ vs ≠ []) →
    ∀ name vs, values' !! name = Some vs →
               (∃ rest, name = String ":" rest) ∧ vs ≠ [].
Proof.
  assert (∀ key value (v : gmap string (list string)),
            (∃ rest, key = String ":" rest) →
            (∀ name vs, v !! name = Some vs →
                        (∃ rest, name = String ":" rest) ∧ vs ≠ []) →
            ∀ name vs, Values_Add key value v !! name = Some vs →
                       (∃ rest, name = String ":" rest) ∧ vs ≠ []) as Hadd.
  { intros key value v Hkey Hv name vs. unfold Values_Add.
    rewrite lookup_insert_Some. intros [[<- <-]|[_ Hname]]; [|by eapply Hv].
    split; [done|]. by destruct (default [] (v !! key)). }
  induction items as [|item rest IH]; intros i values values'; simpl.
  { by intros [= ->]. }
  destruct (Z.eqb_spec (strings_Index item ":") (-1)); [by apply IH|].
  destruct (Z.eqb_spec (strings_Index item ":") 0) as [H0|H0].
  - destruct (item_at _path i) as [seg|]; [|done]. simpl.
    intros Hrun Hv. eapply IH; [done|]. apply Hadd; [|done].
    destruct (string_drop_Index item ":") as [r Hr]; [lia|].
    rewrite H0 in Hr. by exists r.
  - destruct (slice_from item _) as [name'|] eqn:Hname; [|done]. simpl.
    destruct (item_at _path i) as [seg|]; [|done]. simpl.
    destruct (slice_from seg _) as [value|]; [|done]. simpl.
    intros Hrun Hv. eapply IH; [done|]. apply Hadd; [|done].
    apply slice_from_Ok in Hname as [Hi ->]. apply string_drop_Index. lia.
Qed.

(** X8: every name in the map parseSplats returns starts with the marker
    [':'] and has at least one value. *)
Theorem parseSplats_names (p s : string) (values : gmap string (list string))
    (name : string) (vs : list string) :
  parseSplats p s = Ok (Some values) → values !! name = Some vs →
  (∃ rest, name = String ":" rest) ∧ vs ≠ [].
Proof.
  unfold parseSplats. destruct (strings_Contains p ":"); [|done]. simpl.
  destruct (addSplats _ 0 _ ∅) as [values'|] eqn:Hrun; [|done]. simpl.
  intros [= ->]. apply (addSplats_keys _ _ _ _ _ Hrun).
  intros name' vs' Hempty. by rewrite lookup_empty in Hempty.
Qed.

Lemma parseSplats_names_witness :
  (∃ rest, ":name" = String ":" rest) ∧ ["gopher"] ≠ [].
Proof.
  apply (parseSplats_names "/hello/:name" "/hello/gopher"
           {[":name" := ["gopher"]]} ":name" ["gopher"]);
    reflexivity.
Defined.

(** ** Resolution *)

(** X9: on a registry built by the package, whatever the order of the scan,
    [match] returns the empty pattern with a nil handler exactly when no
    registered pattern matches the path. *)
Theorem match_not_found_iff (mux : ServeMux)
    (order : list (string * muxEntry)) (path : string) :
  reachable mux → ranges_over mux order →
  (ServeMux_match order path = Ok ("", None)
   ↔ ∀ k e, m mux !! k = Some e → pathMatch k path ≠ Ok true)
  ∧ ((∃ k, ServeMux_match order path = Ok (k, None))
     → ServeMux_match order path = Ok ("", None)).
Proof.
  intros Hmux%reachable_no_nil Horder.
  destruct (ServeMux_match_spec mux order path Hmux Horder)
    as [[Hres Hnone]|(k & e & Hres & Hh & Hk & Hm & _)]; rewrite Hres.
  - done.
  - split.
    + split.
      * intros [= _ Hnil]. by rewrite Hnil in Hh.
      * intros Hnone. by apply Hnone in Hk.
    + intros [k' [= _ Hnil]]. by rewrite Hnil in Hh.
Qed.

Lemma match_not_found_iff_witness :
  ServeMux_match (map_to_list (m tree_mux1)) "/forest" = Ok ("", None).
Proof.
  destruct (match_not_found_iff tree_mux1 (map_to_list (m tree_mux1))
              "/forest") as [[_ Hnone] _].
  - unfold tree_mux1. apply reachable_Handle, reachable_new.
  - unfold ranges_over. reflexivity.
  - apply Hnone. intros k e Hk. rewrite tree_mux1_entries in Hk.
    registry_entry Hk; done.
Defined.

(** X10: two scans of the same registry in different orders may return
    different patterns, but always of the same length, and one finds a
    handler exactly when the other does. *)
Theorem match_length_order_independent (mux : ServeMux)
    (order1 order2 : list (string * muxEntry)) (path k1 k2 : string)
    (h1 h2 : option Handler) :
  reachable mux → ranges_over mux order1 → ranges_over mux order2 →
  ServeMux_match order1 path = Ok (k1, h1) →
  ServeMux_match order2 path = Ok (k2, h2) →
  len k1 = len k2 ∧ (h1 = None ↔ h2 = None).
Proof.
  intros Hmux%reachable_no_nil Horder1 Horder2 Hres1 Hres2.
  destruct (ServeMux_match_spec mux order1 path Hmux Horder1)
    as [[Hr1 Hnone1]|(k & e & Hr1 & Hh1 & Hk1 & Hm1 & Hmax1)];
    destruct (ServeMux_match_spec mux order2 path Hmux Horder2)
    as [[Hr2 Hnone2]|(k' & e' & Hr2 & Hh2 & Hk2 & Hm2 & Hmax2)];
    rewrite Hr1 in Hres1; rewrite Hr2 in Hres2;
    injection Hres1 as <- <-; injection Hres2 as <- <-.
  - done.
  - by apply Hnone1 in Hk2.
  - by apply Hnone2 in Hk1.
  - specialize (Hmax1 k' e' Hk2 Hm2). specialize (Hmax2 k e Hk1 Hm1).
    split; [lia|]. split; congruence.
Qed.

Lemma match_length_order_independent_witness :
  len "/tree" = len "/tree" ∧ (Some (HandlerFunc 2) = None ↔ Some (HandlerFunc 2) = None).
Proof.
  apply (match_length_order_independent tree_mux2
           (map_to_list (m tree_mux2)) (reverse (map_to_list (m tree_mux2)))
           "/tree").
  - unfold tree_mux2, tree_mux1. do 2 apply reachable_Handle.
    apply reachable_new.
  - unfold ranges_over. reflexivity.
  - unfold ranges_over. apply reverse_Permutation.
  - vm_compute. reflexivity.
  - vm_compute. reflexivity.
Defined.

Lemma match_range_keeps (path : string) (order : list (string * muxEntry))
    (n : Z) (pattern : string) (hd : Handler) :
  (∀ k v, (k, v) ∈ order → pathMatch k path = Ok true → len k ≤ n) →
  match_range path order (n, pattern, Some hd) = Ok (n, pattern, Some hd).
Proof.
  induction order as [|[k v] order IH]; intros Hmax; simpl; [done|].
  destruct (pathMatch_returns k path) as [[|] Hm]; rewrite Hm; simpl.
  - assert (len k ≤ n) by (apply (Hmax k v); [set_solver|done]).
    destruct (Z.ltb_spec n (len k)); [lia|]. simpl.
    apply IH. intros k' v' Hin. apply (Hmax k' v'). set_solver.
  - apply IH. intros k' v' Hin. apply (Hmax k' v'). set_solver.
Qed.

(** X11: ties are broken by the order of the scan alone: every registered
    pattern that matches the path and is as long as any registered pattern
    that matches it is returned, with its handler, by the scan that visits
    it first. *)
Theorem any_longest_match_can_win (mux : ServeMux) (path k : string)
    (e : muxEntry) :
  reachable mux → m mux !! k = Some e → pathMatch k path = Ok true →
  (∀ k' e', m mux !! k' = Some e' → pathMatch k' path = Ok true →
            len k' ≤ len k) →
  ∃ order, ranges_over mux order ∧ order !! 0%nat = Some (k, e)
           ∧ ServeMux_match order path = Ok (k, h e).
Proof.
  intros Hmux%reachable_no_nil Hk Hm Hmax.
  exists ((k, e) :: map_to_list (delete k (m mux))).
  assert (ranges_over mux ((k, e) :: map_to_list (delete k (m mux))))
    as Horder by (by apply map_to_list_delete).
  split_and!; [done|done|].
  destruct (h e) as [hd|] eqn:Hhd; [|by apply Hmux in Hk].
  unfold ServeMux_match. simpl. rewrite Hm. simpl. rewrite Hhd.
  rewrite match_range_keeps; [done|].
  intros k' v' Hin Hm'. apply (Hmax k' v'); [|done].
  apply elem_of_map_to_list in Hin. apply lookup_delete_Some in Hin.
  tauto.
Qed.

Lemma tie_mux_entries :
  m tie_mux =
    <["/:b" := {| explicit := true; h := Some (HandlerFunc 2) |}]>
      (<["/:a" := {| explicit := true; h := Some (HandlerFunc 1) |}]> ∅).
Proof. reflexivity. Qed.

Lemma any_longest_match_can_win_witness :
  (∃ order, ranges_over tie_mux order
            ∧ order !! 0%nat
              = Some ("/:a", {| explicit := true; h := Some (HandlerFunc 1) |})
            ∧ ServeMux_match order "/x" = Ok ("/:a", Some (HandlerFunc 1)))
  ∧ (∃ order, ranges_over tie_mux order
              ∧ order !! 0%nat
                = Some ("/:b",
                        {| explicit := true; h := Some (HandlerFunc 2) |})
              ∧ ServeMux_match order "/x" = Ok ("/:b", Some (HandlerFunc 2))).
Proof.
  assert (reachable tie_mux) as Hmux.
  { unfold tie_mux. do 2 apply reachable_Handle. apply reachable_new. }
  assert (∀ k' e', m tie_mux !! k' = Some e' →
            pathMatch k' "/x" = Ok true → len k' ≤ 3) as Hmax.
  { intros k' e' Hk' Hm. rewrite tie_mux_entries in Hk'.
    registry_entry Hk'; done. }
  split.
  - by apply (any_longest_match_can_win tie_mux "/x" "/:a"
                {| explicit := true; h := Some (HandlerFunc 1) |}).
  - by apply (any_longest_match_can_win tie_mux "/x" "/:b"
                {| explicit := true; h := Some (HandlerFunc 2) |}).
Defined.

(** ** Registration *)

Lemma ends_in_slash_stripped (p : string) :
  ends_in_slash p → stripped p +:+ "/" = p.
Proof. intros [q ->]. by rewrite stripped_app. Qed.

(** The entries of the registry an accepted Handle leaves behind. *)
Lemma Handle_lookup (pattern : string) (hd : Handler) (mux : ServeMux)
    (k : string) :
  pattern ≠ "" → explicit (entry_at mux pattern) = false →
  m (Handle pattern (Some hd) mux).2 !! k =
    if decide (k = pattern) then Some {| explicit := true; h := Some hd |}
    else if decide (k = stripped pattern)
      then if ends_in_slashb pattern
              && negb (explicit (entry_at mux (stripped pattern)))
           then Some (implicit_redirect pattern)
           else m mux !! k
      else m mux !! k.
Proof.
  intros Hne Hfree. rewrite Handle_accepts by done. simpl.
  pose proof (stripped_ne pattern Hne) as Hs.
  destruct (ends_in_slashb pattern && negb _); repeat case_decide;
    simplify_eq;
    by repeat (rewrite lookup_insert_eq || rewrite lookup_insert_ne by done).
Qed.

(** X12: Handle touches at most two keys, the pattern and, for a pattern
    that ends in '/', the pattern without that slash; every other binding
    is as before, and no binding is ever removed. *)
Theorem Handle_frame (pattern : string) (handler : option Handler)
    (mux : ServeMux) (k : string) :
  (k ≠ pattern → k ≠ stripped pattern ∨ ¬ ends_in_slash pattern →
   m (Handle pattern handler mux).2 !! k = m mux !! k)
  ∧ (is_Some (m mux !! k) → is_Some (m (Handle pattern handler mux).2 !! k)).
Proof.
  destruct (Handle_cases pattern handler mux)
    as [->|(hd & -> & Hne & Hfree)]; [done|].
  rewrite Handle_lookup by done. split.
  - intros Hk Hk'. rewrite decide_False by done. case_decide; [|done].
    destruct Hk' as [?|Hp]; [done|].
    destruct (ends_in_slashb pattern) eqn:Hb; [|done].
    by apply ends_in_slashb_spec in Hb.
  - intros Hsome. repeat case_match; done.
Qed.

Lemma Handle_frame_witness :
  m (Handle "/tree" (Some (HandlerFunc 2)) tree_mux1).2 !! "/tree/"
  = m tree_mux1 !! "/tree/".
Proof.
  destruct (Handle_frame "/tree" (Some (HandlerFunc 2)) tree_mux1 "/tree/")
    as [Hframe _].
  apply Hframe; [done|]. right. by intros ?%ends_in_slashb_spec.
Defined.



(** X14: in every registry built by the package each entry has a handler
    that is not nil; an explicit entry has a non-empty pattern; and an
    implicit entry is the permanent redirect (301) to its pattern followed
    by a slash, a pattern that is itself registered explicitly. *)
Theorem reachable_entries_wf (mux : ServeMux) (k : string) (e : muxEntry) :
  reachable mux → m mux !! k = Some e → entry_wf mux k e.
Proof.
  intros Hmux. revert k e.
  induction Hmux as [|pattern handler mux Hmux IH]; intros k e Hk.
  { simpl in Hk. by rewrite lookup_empty in Hk. }
  destruct (Handle_cases pattern handler mux)
    as [Heq|(hd & -> & Hne & Hfree)].
  { rewrite Heq in Hk |- *. by apply IH. }
  assert (∀ k0 e0, m mux !! k0 = Some e0 →
            entry_wf (Handle pattern (Some hd) mux).2 k0 e0) as Hold.
  { intros k0 e0 Hk0. destruct (IH k0 e0 Hk0) as (Hh & Hexp & Himp).
    split_and!; [done..|]. intros He0.
    destruct (Himp He0) as (-> & hd0 & Hslash). split; [done|].
    exists hd0. by apply Handle_keeps_explicit. }
  rewrite Handle_lookup in Hk by done.
  case_decide as Hkp; [injection Hk as <-; subst k; by split_and!|].
  case_decide as Hks; [|by apply Hold].
  destruct (ends_in_slashb pattern) eqn:Hb; simpl in Hk; [|by apply Hold].
  destruct (explicit (entry_at mux (stripped pattern))); simpl in Hk;
    [by apply Hold|].
  injection Hk as <-. subst k. apply ends_in_slashb_spec in Hb.
  unfold entry_wf. rewrite (ends_in_slash_stripped pattern Hb).
  split_and!; [done..|]. intros _. split; [done|]. exists hd.
  rewrite Handle_lookup by done. by rewrite decide_True.
Qed.

Lemma reachable_entries_wf_witness :
  entry_wf tree_mux1 "/tree" (implicit_redirect "/tree/").
Proof.
  apply (reachable_entries_wf tree_mux1 "/tree" (implicit_redirect "/tree/")).
  - unfold tree_mux1. apply reachable_Handle, reachable_new.
  - reflexivity.
Defined.






(** ** Canonical paths and dispatch *)

Lemma cleanPath_shape_witness :
  cleanPath go_path_Clean "a/b" = cleanPath go_path_Clean ("/" +:+ "a/b")
  ∧ ∃ np, cleanPath go_path_Clean "/a/./b/" = Ok np ∧ ends_in_slash np.
Proof.
  destruct (cleanPath_shape go_path_Clean "a/b") as (_ & Hlead & _).
  destruct (cleanPath_shape go_path_Clean "/a/./b/") as (_ & _ & Htrail).
  split.
  - by apply (Hlead "a"%char "/b").
  - apply Htrail. by exists "/a/./b".
Defined.

Lemma host_mux_entries :
  m host_mux =
    <["example.com/admin" := implicit_redirect "example.com/admin/"]>
      (<["example.com/admin/" :=
           {| explicit := true; h := Some (HandlerFunc 2) |}]>
         (<["/admin" := implicit_redirect "/admin/"]>
            (<["/admin/" := {| explicit := true; h := Some (HandlerFunc 1) |}]>
               ∅))).
Proof. reflexivity. Qed.

Lemma port_mux_entries :
  m port_mux =
    <["localhost:8080/foo" :=
        {| explicit := true; h := Some (HandlerFunc 1) |}]> ∅.
Proof. reflexivity. Qed.

Lemma parseSplats_flat (p s : string) :
  strings_Contains p ":" = false → parseSplats p s = Ok None.
Proof. intros Hp. unfold parseSplats. by rewrite Hp. Qed.

Section Dispatch.
Variable path_Clean : string → string.
Variable Values_Encode : gmap string (list string) → string.

(** X17: when [path.Clean] keeps the leading slash of a rooted path,
    cleanPath returns a path with a leading slash for every input, with or
    without one. *)
Theorem cleanPath_rooted (p : string) :
  (∀ s, ∃ t, path_Clean (String "/" s) = String "/" t) →
  ∃ np, cleanPath path_Clean p = Ok (String "/" np).
Proof.
  intros Hclean. unfold cleanPath. destruct p as [|c p]; [by eexists|].
  simpl. set (p' := if negb (Ascii.eqb c "/") then _ else _).
  assert (∃ s, p' = String "/" s) as [s Hp'].
  { unfold p'. destruct (Ascii.eqb_spec c "/") as [->|_]; by eexists. }
  rewrite Hp'. destruct (Hclean s) as [t ->].
  destruct (byte_at_returns (String "/" s) (len (String "/" s) - 1))
    as [d ->].
  { rewrite len_String. pose proof (len_nonneg s). lia. }
  simpl. destruct (_ && _); by eexists.
Qed.

Lemma handler_first_scan (order1 order2 : list (string * muxEntry))
    (r : Request) (k : string) (hd : Handler) :
  ServeMux_match order1 (Host r +:+ URL_Path r) = Ok (k, Some hd) →
  handler Values_Encode order1 order2 r =
    params ← parseSplats k (URL_Path r);
    match params with
    | Some params =>
        Ok (hd, {| Method := Method r; Host := Host r;
                   URL_Path := URL_Path r;
                   URL_RawQuery :=
                     Values_Encode params +:+ "&" +:+ URL_RawQuery r |})
    | None => Ok (hd, r)
    end.
Proof. intros Hfirst. unfold handler. by rewrite Hfirst. Qed.

(** What handler returns once the two scans are known. *)
Lemma handler_flat_found (order1 order2 : list (string * muxEntry))
    (r : Request) (k : string) (hd : Handler) :
  strings_Contains k ":" = false →
  ServeMux_match order1 (Host r +:+ URL_Path r) = Ok (k, Some hd)
  ∨ (ServeMux_match order1 (Host r +:+ URL_Path r) = Ok ("", None)
     ∧ ServeMux_match order2 (URL_Path r) = Ok (k, Some hd)) →
  handler Values_Encode order1 order2 r = Ok (hd, r).
Proof.
  intros Hflat [Hfirst|[Hfirst Hsecond]]; unfold handler; rewrite Hfirst;
    simpl; rewrite ?Hsecond; simpl; by rewrite parseSplats_flat.
Qed.

(** X18: a router whose registered patterns hold no capture marker never
    faults: ServeHTTP returns on every request, and a request it hands to a
    handler is passed as it came, with the response untouched. *)
Theorem flat_router_never_faults (mux : ServeMux)
    (order1 order2 : list (string * muxEntry)) (w : ResponseWriter)
    (r : Request) :
  reachable mux →
  (∀ k e, m mux !! k = Some e → strings_Contains k ":" = false) →
  ranges_over mux order1 → ranges_over mux order2 →
  ∃ served,
    ServeHTTP path_Clean Values_Encode order1 order2 w r = Ok served
    ∧ ∀ hd r', invoked served = Some (hd, r') → r' = r ∧ response served = w.
Proof.
  intros Hmux%reachable_no_nil Hflat Horder1 Horder2.
  assert (∃ hd, handler Values_Encode order1 order2 r = Ok (hd, r))
    as [hd Hhandler].
  { destruct (ServeMux_match_spec mux order1 (Host r +:+ URL_Path r) Hmux
                Horder1) as [[Hr1 _]|(k & e & Hr1 & Hh & Hk & _)].
    - destruct (ServeMux_match_spec mux order2 (URL_Path r) Hmux Horder2)
        as [[Hr2 _]|(k & e & Hr2 & Hh & Hk & _)].
      + exists NotFoundHandler. unfold handler. rewrite Hr1. simpl.
        by rewrite Hr2.
      + destruct (h e) as [hd|] eqn:Hhd; [|done]. exists hd.
        apply (handler_flat_found order1 order2 r k); eauto.
    - destruct (h e) as [hd|] eqn:Hhd; [|done]. exists hd.
      apply (handler_flat_found order1 order2 r k); eauto. }
  unfold ServeHTTP. rewrite Hhandler.
  destruct (negb (String.eqb (Method r) "CONNECT")); simpl.
  - destruct (cleanPath_returns path_Clean (URL_Path r)) as [p ->]. simpl.
    destruct (negb (String.eqb p (URL_Path r))); simpl;
      (eexists; split; [done|]); simpl; [done|].
    by intros ? ? [= <- <-].
  - eexists; split; [done|]. simpl. by intros ? ? [= <- <-].
Qed.

(** X19: when no registered pattern matches the host followed by the path
    nor the path alone, handler returns the not-found handler and leaves
    the request as it is. *)
Theorem handler_not_found (mux : ServeMux)
    (order1 order2 : list (string * muxEntry)) (r : Request) :
  reachable mux → ranges_over mux order1 → ranges_over mux order2 →
  (∀ k e, m mux !! k = Some e →
          pathMatch k (Host r +:+ URL_Path r) ≠ Ok true
          ∧ pathMatch k (URL_Path r) ≠ Ok true) →
  handler Values_Encode order1 order2 r = Ok (NotFoundHandler, r).
Proof.
  intros Hmux%reachable_no_nil Horder1 Horder2 Hnone. unfold handler.
  rewrite (ServeMux_match_none mux order1); [|done..|].
  - simpl. rewrite (ServeMux_match_none mux order2); [done..|].
    intros k e Hk. by apply (Hnone k e).
  - intros k e Hk. by apply (Hnone k e).
Qed.

(** X20: a host-specific pattern takes precedence over general ones: when
    a registered pattern without capture marker matches the host followed
    by the path and is longer than every other registered pattern that
    does, handler returns its handler, whatever matches the path alone. *)
Theorem host_pattern_precedence (mux : ServeMux)
    (order1 order2 : list (string * muxEntry)) (r : Request) (k : string)
    (e : muxEntry) (hd : Handler) :
  reachable mux → ranges_over mux order1 →
  m mux !! k = Some e → h e = Some hd → strings_Contains k ":" = false →
  pathMatch k (Host r +:+ URL_Path r) = Ok true →
  (∀ k' e', m mux !! k' = Some e' → k' ≠ k →
            pathMatch k' (Host r +:+ URL_Path r) = Ok true →
            len k' < len k) →
  handler Values_Encode order1 order2 r = Ok (hd, r).
Proof.
  intros Hmux%reachable_no_nil Horder1 Hk Hhd Hflat Hm Hothers.
  apply (handler_flat_found order1 order2 r k); [done|]. left.
  rewrite <- Hhd. by apply (ServeMux_match_longest mux).
Qed.

(** X21: a pattern whose first segment holds the marker past its first
    byte, like a host with a port, is treated as a template; once it wins
    the scan of the host followed by a path that starts with a slash,
    parseSplats slices the empty first segment of the path and handler
    panics. *)
Theorem host_port_pattern_faults (mux : ServeMux)
    (order1 order2 : list (string * muxEntry)) (r : Request)
    (item rest path : string) (e : muxEntry) :
  reachable mux → ranges_over mux order1 →
  strings_Count item "/" = 0 → 0 < strings_Index item ":" →
  URL_Path r = "/" +:+ path →
  m mux !! (item +:+ "/" +:+ rest) = Some e →
  pathMatch (item +:+ "/" +:+ rest) (Host r +:+ URL_Path r) = Ok true →
  (∀ k' e', m mux !! k' = Some e' → k' ≠ item +:+ "/" +:+ rest →
            pathMatch k' (Host r +:+ URL_Path r) = Ok true →
            len k' < len (item +:+ "/" +:+ rest)) →
  parseSplats (item +:+ "/" +:+ rest) (URL_Path r)
  = Panic "slice bounds out of range"
  ∧ handler Values_Encode order1 order2 r = Panic "slice bounds out of range".
Proof.
  intros Hmux%reachable_no_nil Horder1 Hitem Hindex Hpath Hk Hm Hothers.
  assert (parseSplats (item +:+ "/" +:+ rest) (URL_Path r)
          = Panic "slice bounds out of range") as Hfault.
  { unfold parseSplats.
    assert (strings_Contains (item +:+ "/" +:+ rest) ":" = true) as ->.
    { apply strings_Contains_spec.
      destruct (strings_Index_found item ":") as (a & b & -> & _); [lia|].
      exists a, (b +:+ "/" +:+ rest). by rewrite !string_app_assoc. }
    simpl. change ("/" +:+ rest) with (String "/" rest).
    rewrite strings_Split_app, (strings_Split_no_sep item) by done.
    rewrite Hpath. simpl.
    destruct (Z.eqb_spec (strings_Index item ":") (-1)); [lia|].
    destruct (Z.eqb_spec (strings_Index item ":") 0); [lia|].
    destruct (strings_Index_range item ":") as [?|Hr]; [lia|].
    rewrite (slice_from_spec item) by lia. simpl.
    unfold slice_from, slice.
    destruct (Z.leb_spec 0 (strings_Index item ":")); [|lia].
    destruct (Z.leb_spec (strings_Index item ":") (len "")); [|done].
    unfold len in *. simpl in *. lia. }
  split; [done|].
  destruct (h e) as [hd|] eqn:Hhd; [|by apply Hmux in Hk].
  rewrite (handler_first_scan order1 order2 r (item +:+ "/" +:+ rest) hd).
  - by rewrite Hfault.
  - rewrite <- Hhd. by apply (ServeMux_match_longest mux).
Qed.
End Dispatch.

Lemma cleanPath_rooted_witness :
  ∃ np, cleanPath go_path_Clean "a/../b/" = Ok (String "/" np).
Proof.
  apply (cleanPath_rooted go_path_Clean "a/../b/").
  intros s. by eexists.
Defined.

Lemma flat_router_never_faults_witness :
  ∃ served,
    ServeHTTP go_path_Clean (λ _, "") (map_to_list (m tree_mux2))
      (map_to_list (m tree_mux2)) {| Header := ∅; Status := None |}
      {| Method := "GET"; Host := "example.com"; URL_Path := "/tree";
         URL_RawQuery := "a=b" |} = Ok served
    ∧ ∀ hd r', invoked served = Some (hd, r') →
        r' = {| Method := "GET"; Host := "example.com"; URL_Path := "/tree";
                URL_RawQuery := "a=b" |}
        ∧ response served = {| Header := ∅; Status := None |}.
Proof.
  apply (flat_router_never_faults go_path_Clean (λ _, "") tree_mux2).
  - unfold tree_mux2, tree_mux1. do 2 apply reachable_Handle.
    apply reachable_new.
  - intros k e Hk. rewrite tree_mux2_entries in Hk. registry_entry Hk; done.
  - unfold ranges_over. reflexivity.
  - unfold ranges_over. reflexivity.
Defined.

Lemma handler_not_found_witness :
  handler (λ _, "") (map_to_list (m tree_mux1)) (map_to_list (m tree_mux1))
    {| Method := "GET"; Host := "example.com"; URL_Path := "/forest";
       URL_RawQuery := "" |}
  = Ok (NotFoundHandler,
        {| Method := "GET"; Host := "example.com"; URL_Path := "/forest";
           URL_RawQuery := "" |}).
Proof.
  apply (handler_not_found (λ _, "") tree_mux1).
  - unfold tree_mux1. apply reachable_Handle, reachable_new.
  - unfold ranges_over. reflexivity.
  - unfold ranges_over. reflexivity.
  - intros k e Hk. rewrite tree_mux1_entries in Hk. registry_entry Hk; done.
Defined.

Lemma host_pattern_precedence_witness :
  handler (λ _, "") (map_to_list (m host_mux)) (map_to_list (m host_mux))
    {| Method := "GET"; Host := "example.com"; URL_Path := "/admin/users";
       URL_RawQuery := "" |}
  = Ok (HandlerFunc 2,
        {| Method := "GET"; Host := "example.com"; URL_Path := "/admin/users";
           URL_RawQuery := "" |}).
Proof.
  apply (host_pattern_precedence (λ _, "") host_mux _ _ _
           "example.com/admin/"
           {| explicit := true; h := Some (HandlerFunc 2) |}).
  - unfold host_mux. do 2 apply reachable_Handle. apply reachable_new.
  - unfold ranges_over. reflexivity.
  - reflexivity.
  - reflexivity.
  - reflexivity.
  - reflexivity.
  - intros k' e' Hk' Hne Hm. rewrite host_mux_entries in Hk'.
    registry_entry Hk'; done.
Defined.

Lemma host_port_pattern_faults_witness :
  handler (λ _, "") (map_to_list (m port_mux)) (map_to_list (m port_mux))
    {| Method := "GET"; Host := "localhost:8080"; URL_Path := "/foo";
       URL_RawQuery := "" |}
  = Panic "slice bounds out of range".
Proof.
  apply (host_port_pattern_faults (λ _, "") port_mux
           (map_to_list (m port_mux)) (map_to_list (m port_mux))
           {| Method := "GET"; Host := "localhost:8080"; URL_Path := "/foo";
              URL_RawQuery := "" |}
           "localhost:8080" "foo" "foo"
           {| explicit := true; h := Some (HandlerFunc 1) |}).
  - unfold port_mux. apply reachable_Handle, reachable_new.
  - unfold ranges_over. reflexivity.
  - reflexivity.
  - reflexivity.
  - reflexivity.
  - reflexivity.
  - reflexivity.
  - intros k' e' Hk' Hne Hm. rewrite port_mux_entries in Hk'.
    registry_entry Hk'; done.
Defined.

(** ** When extraction returns *)

Lemma addSplats_returns (_path items : list string) :
  ∀ i values,
    0 ≤ i →
    (∀ j item, items !! j = Some item → 0 ≤ strings_Index item ":" →
       ∃ seg, _path !! (Z.to_nat i + j)%nat = Some seg
              ∧ strings_Index item ":" ≤ len seg) →
    returns (addSplats _path i items values).
Proof.
  induction items as [|item rest IH]; intros i values Hi Hsegs; simpl; [done|].
  assert (∀ v, returns (addSplats _path (i + 1) rest v)) as Hrest.
  { intros v. apply IH; [lia|]. intros j item' Hj Hk.
    destruct (Hsegs (S j) item' Hj Hk) as (seg & Hseg & Hlen).
    exists seg. split; [|done].
    by replace (Z.to_nat (i + 1) + j)%nat with (Z.to_nat i + S j)%nat by lia. }
  destruct (Z.eqb_spec (strings_Index item ":") (-1)); [done|].
  destruct (strings_Index_range item ":") as [?|Hr]; [lia|].
  destruct (Hsegs 0%nat item) as (seg & Hseg & Hlen); [done|lia|].
  rewrite Nat.add_0_r in Hseg. apply item_at_lookup in Hseg.
  rewrite Z2Nat.id in Hseg by done. rewrite Hseg.
  destruct (Z.eqb_spec (strings_Index item ":") 0); simpl; [done|].
  rewrite (slice_from_spec item) by lia. simpl.
  rewrite (slice_from_spec seg) by lia. simpl. done.
Qed.

(** X22: parseSplats on a templated pattern returns exactly when every
    pattern segment that holds the marker has a path segment at its
    position and that path segment is at least as long as the marker's
    index; in every other case it panics on an index or a slice bound. *)
Theorem parseSplats_returns_iff (p s : string) :
  strings_Contains p ":" = true →
  (∃ values, parseSplats p s = Ok (Some values))
  ↔ ∀ j item,
      strings_Split p "/" !! j = Some item → 0 ≤ strings_Index item ":" →
      ∃ seg, strings_Split s "/" !! j = Some seg
             ∧ strings_Index item ":" ≤ len seg.
Proof.
  intros Htpl. split.
  - intros [values Hvalues] j item Hj Hk.
    unfold parseSplats in Hvalues. rewrite Htpl in Hvalues. simpl in Hvalues.
    destruct (addSplats _ 0 _ ∅) as [values'|] eqn:Hrun; [|done].
    destruct (addSplats_binds (strings_Split s "/") (strings_Split p "/")
                0 ∅ values' j item) as (seg & Hseg & Hlen & _); [done..|].
    by exists seg.
  - intros Hsegs. unfold parseSplats. rewrite Htpl. simpl.
    destruct (addSplats_returns (strings_Split s "/") (strings_Split p "/")
                0 ∅) as [values ->]; [done|done|].
    by exists values.
Qed.

Lemma parseSplats_returns_iff_witness :
  ∃ values, parseSplats "/x/user-:id/" "/x/abcdefgh/y" = Ok (Some values).
Proof.
  apply (parseSplats_returns_iff "/x/user-:id/" "/x/abcdefgh/y" eq_refl).
  intros [|[|[|[|j]]]] item [= <-] Hk; try done.
  exists "abcdefgh". split; [reflexivity|]. vm_compute. discriminate.
Defined.

Section Captures.
Variable Values_Encode : gmap string (list string) → string.

(** X23: when no registered pattern matches the host followed by the path
    and the longest registered pattern matching the path is a template
    without trailing slash, handler returns that pattern's handler and the
    request with the encoded captures and an ampersand put in front of its
    query, everything else unchanged. *)
Theorem handler_injects_captures (mux : ServeMux)
    (order1 order2 : list (string * muxEntry)) (r : Request) (k : string)
    (e : muxEntry) (hd : Handler) :
  reachable mux → ranges_over mux order1 → ranges_over mux order2 →
  (∀ k' e', m mux !! k' = Some e' →
            pathMatch k' (Host r +:+ URL_Path r) ≠ Ok true) →
  m mux !! k = Some e → h e = Some hd →
  strings_Contains k ":" = true → ¬ ends_in_slash k →
  pathMatch k (URL_Path r) = Ok true →
  (∀ k' e', m mux !! k' = Some e' → k' ≠ k →
            pathMatch k' (URL_Path r) = Ok true → len k' < len k) →
  ∃ values,
    parseSplats k (URL_Path r) = Ok (Some values)
    ∧ handler Values_Encode order1 order2 r
      = Ok (hd, {| Method := Method r; Host := Host r;
                   URL_Path := URL_Path r;
                   URL_RawQuery :=
                     Values_Encode values +:+ "&" +:+ URL_RawQuery r |}).
Proof.
  intros Hmux%reachable_no_nil Horder1 Horder2 Hnone Hk Hhd Htpl Hexact Hm
    Hothers.
  destruct (parseSplats_exact_returns k (URL_Path r) Htpl Hexact Hm)
    as [values Hvalues].
  exists values. split; [done|]. unfold handler.
  rewrite (ServeMux_match_none mux order1) by done. simpl.
  rewrite (ServeMux_match_longest mux order2 (URL_Path r) k e) by done.
  rewrite Hhd. simpl. by rewrite Hvalues.
Qed.
End Captures.

(** The registry of the package's usage example. *)
Lemma handler_injects_captures_witness :
  ∃ values,
    parseSplats "/hello/:name" "/hello/gopher" = Ok (Some values)
    ∧ handler (λ _, ":name=gopher")
        (map_to_list (m (HandleFunc "/hello/:name" 7 NewServeMux).2))
        (map_to_list (m (HandleFunc "/hello/:name" 7 NewServeMux).2))
        {| Method := "GET"; Host := "example.com";
           URL_Path := "/hello/gopher"; URL_RawQuery := "lang=go" |}
      = Ok (HandlerFunc 7,
            {| Method := "GET"; Host := "example.com";
               URL_Path := "/hello/gopher";
               URL_RawQuery := ":name=gopher&lang=go" |}).
Proof.
  assert (m (HandleFunc "/hello/:name" 7 NewServeMux).2
          = <["/hello/:name" :=
                {| explicit := true; h := Some (HandlerFunc 7) |}]> ∅)
    as Hentries by reflexivity.
  apply (handler_injects_captures (λ _, ":name=gopher")
           (HandleFunc "/hello/:name" 7 NewServeMux).2 _ _
           {| Method := "GET"; Host := "example.com";
              URL_Path := "/hello/gopher"; URL_RawQuery := "lang=go" |}
           "/hello/:name" {| explicit := true; h := Some (HandlerFunc 7) |}).
  - apply reachable_Handle, reachable_new.
  - unfold ranges_over. reflexivity.
  - unfold ranges_over. reflexivity.
  - intros k' e' Hk'. rewrite Hentries in Hk'. registry_entry Hk'; done.
  - reflexivity.
  - reflexivity.
  - reflexivity.
  - by intros ?%ends_in_slashb_spec.
  - reflexivity.
  - intros k' e' Hk' Hne. rewrite Hentries in Hk'. registry_entry Hk'; done.
Defined.
